(** * tdesign-common, js/tree/tree-node.ts: the tree node state engine

    A shallow embedding of the [TreeNode] class.  JavaScript objects are
    references into an object memory ([heap]); the store ([TreeStore]) owns
    the node index, the state maps and the root list.  Loops and recursion
    over the object graph take a recursion budget ([fuel]); running out of it
    ([Timeout]) stands for a computation that does not return. *)

From Stdlib Require Import ZArith Bool Lia.
From stdpp Require Import base option list strings gmap functions.

Open Scope Z_scope.
Open Scope nat_scope.

(** ** Results of fallible computations *)

Inductive Error := TypeError.

Inductive result (A : Type) : Type :=
| Ret (a : A)
| Throw (e : Error)
| Timeout.
Arguments Ret {A} a.
Arguments Throw {A} e.
Arguments Timeout {A}.

Definition bind {A B} (m : result A) (f : A -> result B) : result B :=
  match m with
  | Ret a => f a
  | Throw e => Throw e
  | Timeout => Timeout
  end.

Notation "x <- m ;; k" := (bind m (fun x => k))
  (at level 100, m at next level, right associativity).

(** [list.forEach(f)] with the state threaded through the callbacks. *)
Fixpoint forEach {A S : Type} (f : S -> A -> result S) (l : list A) (s : S)
  : result S :=
  match l with
  | [] => Ret s
  | x :: l' => s' <- f s x ;; forEach f l' s'
  end.

(** [list.every(f)]: stops at the first callback that returns false. *)
Fixpoint every {A : Type} (f : A -> result bool) (l : list A) : result bool :=
  match l with
  | [] => Ret true
  | x :: l' => b <- f x ;; if b then every f l' else Ret false
  end.

(** ** Data model *)

(** An object reference. *)
Definition ref := nat.

(** [children: TreeNode[] | boolean], and [null] from the constructor. *)
Inductive Children :=
| Kids (l : list ref)
| Flag (b : bool)
| Null.

Definition asArray (c : Children) : option (list ref) :=
  match c with Kids l => Some l | _ => None end.

(** The payload is opaque to the node. *)
Definition TypeTreeNodeData := string.

Record TreeNode := mkTreeNode {
  value : string;
  label : string;
  dataset : TypeTreeNodeData;
  parent : option ref;
  children : Children;
  vmIsLeaf : bool;
  vmIsFirst : bool;
  vmIsLast : bool;
  expanded : bool;
  expandMutex : bool;
  actived : bool;
  activable : bool;
  checkable : bool;
  vmCheckable : bool;
  checked : bool;
  indeterminate : bool;
  disabled : bool;
  draggable : bool;
  visible : bool;
  level : nat;
  loading : bool;
}.

(** The data part of [TypeTreeNodeModel], as [getTreeNodeModel] fills it
    from the cached fields of the node (the model's method slots are not
    data and are left out). *)
Record TypeTreeNodeModel := mkModel {
  m_data : TypeTreeNodeData;
  m_actived : bool;
  m_expanded : bool;
  m_checked : bool;
  m_indeterminate : bool;
  m_loading : bool;
}.

(** [Map<string, boolean>]: [get] is truthy on the keys bound to [true]. *)
Abbreviation TypeIdMap := (gmap string bool).

Definition truthy (o : option bool) : bool :=
  match o with Some true => true | _ => false end.

(** [tree.config]; [load] and [filter] are the caller's functions. *)
Module Config.
Record t := mk {
  checkable : bool;
  activable : bool;
  disabled : bool;
  expandMutex : bool;
  expandParent : bool;
  checkStrictly : bool;
  activeMultiple : bool;
  lazy : bool;
  load : option (TreeNode -> list TypeTreeNodeData);
  filter : option (TypeTreeNodeModel -> bool);
}.
End Config.

(** The store the node methods reach through [this.tree], together with the
    object memory.  Every node of [heap] belongs to this one store. *)
Record TreeStore := mkTreeStore {
  config : Config.t;
  nodeMap : gmap string ref;
  checkedMap : TypeIdMap;
  expandedMap : TypeIdMap;
  activedMap : TypeIdMap;
  filterMap : TypeIdMap;
  tree_children : list ref;
  heap : ref -> TreeNode;
}.

Definition set_heap (s : TreeStore) (h : ref -> TreeNode) : TreeStore :=
  mkTreeStore (config s) (nodeMap s) (checkedMap s) (expandedMap s)
    (activedMap s) (filterMap s) (tree_children s) h.
Definition set_nodeMap (s : TreeStore) (m : gmap string ref) : TreeStore :=
  mkTreeStore (config s) m (checkedMap s) (expandedMap s)
    (activedMap s) (filterMap s) (tree_children s) (heap s).
Definition set_checkedMap (s : TreeStore) (m : TypeIdMap) : TreeStore :=
  mkTreeStore (config s) (nodeMap s) m (expandedMap s)
    (activedMap s) (filterMap s) (tree_children s) (heap s).
Definition set_expandedMap (s : TreeStore) (m : TypeIdMap) : TreeStore :=
  mkTreeStore (config s) (nodeMap s) (checkedMap s) m
    (activedMap s) (filterMap s) (tree_children s) (heap s).
Definition set_activedMap (s : TreeStore) (m : TypeIdMap) : TreeStore :=
  mkTreeStore (config s) (nodeMap s) (checkedMap s) (expandedMap s)
    m (filterMap s) (tree_children s) (heap s).
Definition set_filterMap (s : TreeStore) (m : TypeIdMap) : TreeStore :=
  mkTreeStore (config s) (nodeMap s) (checkedMap s) (expandedMap s)
    (activedMap s) m (tree_children s) (heap s).
Definition set_tree_children (s : TreeStore) (l : list ref) : TreeStore :=
  mkTreeStore (config s) (nodeMap s) (checkedMap s) (expandedMap s)
    (activedMap s) (filterMap s) l (heap s).

(** Writing the fields of the object at [r]. *)
Definition modify (s : TreeStore) (r : ref) (f : TreeNode -> TreeNode)
  : TreeStore :=
  set_heap s (<[r := f (heap s r)]> (heap s)).

Definition with_parent (p : option ref) (n : TreeNode) : TreeNode :=
  mkTreeNode (value n) (label n) (dataset n) p (children n)
    (vmIsLeaf n) (vmIsFirst n) (vmIsLast n) (expanded n) (expandMutex n)
    (actived n) (activable n) (checkable n) (vmCheckable n) (checked n)
    (indeterminate n) (disabled n) (draggable n) (visible n) (level n)
    (loading n).
Definition with_children (c : Children) (n : TreeNode) : TreeNode :=
  mkTreeNode (value n) (label n) (dataset n) (parent n) c
    (vmIsLeaf n) (vmIsFirst n) (vmIsLast n) (expanded n) (expandMutex n)
    (actived n) (activable n) (checkable n) (vmCheckable n) (checked n)
    (indeterminate n) (disabled n) (draggable n) (visible n) (level n)
    (loading n).
Definition with_loading (b : bool) (n : TreeNode) : TreeNode :=
  mkTreeNode (value n) (label n) (dataset n) (parent n) (children n)
    (vmIsLeaf n) (vmIsFirst n) (vmIsLast n) (expanded n) (expandMutex n)
    (actived n) (activable n) (checkable n) (vmCheckable n) (checked n)
    (indeterminate n) (disabled n) (draggable n) (visible n) (level n) b.
(** The six fields [update] assigns before it reads [getVisible]. *)
Definition with_view (leaf first last : bool) (lvl : nat) (act ex : bool)
  (n : TreeNode) : TreeNode :=
  mkTreeNode (value n) (label n) (dataset n) (parent n) (children n)
    leaf first last ex (expandMutex n)
    act (activable n) (checkable n) (vmCheckable n) (checked n)
    (indeterminate n) (disabled n) (draggable n) (visible n) lvl
    (loading n).
Definition with_visible (b : bool) (n : TreeNode) : TreeNode :=
  mkTreeNode (value n) (label n) (dataset n) (parent n) (children n)
    (vmIsLeaf n) (vmIsFirst n) (vmIsLast n) (expanded n) (expandMutex n)
    (actived n) (activable n) (checkable n) (vmCheckable n) (checked n)
    (indeterminate n) (disabled n) (draggable n) b (level n)
    (loading n).
Definition with_vmCheckable (b : bool) (n : TreeNode) : TreeNode :=
  mkTreeNode (value n) (label n) (dataset n) (parent n) (children n)
    (vmIsLeaf n) (vmIsFirst n) (vmIsLast n) (expanded n) (expandMutex n)
    (actived n) (activable n) (checkable n) b (checked n)
    (indeterminate n) (disabled n) (draggable n) (visible n) (level n)
    (loading n).
Definition with_checked (b : bool) (n : TreeNode) : TreeNode :=
  mkTreeNode (value n) (label n) (dataset n) (parent n) (children n)
    (vmIsLeaf n) (vmIsFirst n) (vmIsLast n) (expanded n) (expandMutex n)
    (actived n) (activable n) (checkable n) (vmCheckable n) b
    (indeterminate n) (disabled n) (draggable n) (visible n) (level n)
    (loading n).
Definition with_indeterminate (b : bool) (n : TreeNode) : TreeNode :=
  mkTreeNode (value n) (label n) (dataset n) (parent n) (children n)
    (vmIsLeaf n) (vmIsFirst n) (vmIsLast n) (expanded n) (expandMutex n)
    (actived n) (activable n) (checkable n) (vmCheckable n) (checked n)
    b (disabled n) (draggable n) (visible n) (level n)
    (loading n).

(** ** Store entry points that live in tree-store.ts *)

(** Modelled from the spec: [tree.reflow], [tree.updated], [tree.emit] and
    [tree.updateFilterNodes] are methods of the store class, which this file
    only imports.  The spec describes them as the request to rebuild the
    flattened view and to emit a change notification; none of the modelled
    fields (maps, index, links, cached node fields) is written by them. *)
Definition reflow (s : TreeStore) : TreeStore := s.
Definition updated (s : TreeStore) (r : ref) : TreeStore := s.
Definition updateFilterNodes (s : TreeStore) : TreeStore := s.

(** ** Reading the structure *)

(** [getParents]: the [while (node)] loop over the parent links. *)
Fixpoint parentsFrom (fuel : nat) (s : TreeStore) (node : option ref)
  : result (list ref) :=
  match node with
  | None => Ret []
  | Some p =>
      match fuel with
      | 0 => Timeout
      | S fuel' =>
          ps <- parentsFrom fuel' s (parent (heap s p)) ;; Ret (p :: ps)
      end
  end.

Definition getParents (fuel : nat) (s : TreeStore) (r : ref)
  : result (list ref) :=
  parentsFrom fuel s (parent (heap s r)).

(** [getSiblings]: the parent's child array, the root list, or a fresh
    empty array when the parent holds no array. *)
Definition getSiblings (s : TreeStore) (r : ref) : list ref :=
  match parent (heap s r) with
  | Some p =>
      match children (heap s p) with
      | Kids l => l
      | _ => []
      end
  | None => tree_children s
  end.

(** [list.indexOf(x)], [-1] when absent. *)
Fixpoint indexOf (x : ref) (l : list ref) : Z :=
  match l with
  | [] => (-1)%Z
  | y :: l' =>
      if decide (y = x) then 0%Z
      else let i := indexOf x l' in if (i <? 0)%Z then (-1)%Z else (i + 1)%Z
  end.

Definition getIndex (s : TreeStore) (r : ref) : Z :=
  indexOf r (getSiblings s r).

Definition getLevel (fuel : nat) (s : TreeStore) (r : ref) : result nat :=
  ps <- getParents fuel s r ;; Ret (length ps).

(** [list[i]] for a number [i]: [undefined] out of range. *)
Definition at_index (l : list ref) (i : Z) : option ref :=
  if (i <? 0)%Z then None else l !! Z.to_nat i.

(** [list.splice(start, deleteCount, ...items)] on integers. *)
Definition splice (start : Z) (deleteCount : nat) (items l : list ref)
  : list ref :=
  let len := Z.of_nat (length l) in
  let from :=
    Z.to_nat (if (start <? 0)%Z then Z.max (len + start) 0
              else Z.min start len) in
  take from l ++ items ++ drop (from + deleteCount) l.

(** ** Status predicates *)

Definition isExpandMutex (s : TreeStore) (r : ref) : bool :=
  Config.expandMutex (config s) || expandMutex (heap s r).

Definition isActivable (s : TreeStore) (r : ref) : bool :=
  Config.activable (config s) || activable (heap s r).

Definition isCheckable (s : TreeStore) (r : ref) : bool :=
  Config.checkable (config s) || checkable (heap s r).

(** [tree.nodeMap.get(value)] is an object or [undefined]. *)
Definition inNodeMap (s : TreeStore) (r : ref) : bool :=
  bool_decide (is_Some (nodeMap s !! value (heap s r))).

Definition isActived (s : TreeStore) (r : ref) (map : option TypeIdMap)
  : bool :=
  let activedMap := default (activedMap s) map in
  inNodeMap s r && truthy (activedMap !! value (heap s r)).

Definition isExpanded (s : TreeStore) (r : ref) (map : option TypeIdMap)
  : bool :=
  let expandedMap := default (expandedMap s) map in
  inNodeMap s r && truthy (expandedMap !! value (heap s r)).

Fixpoint isChecked (fuel : nat) (s : TreeStore) (r : ref)
  (map : option TypeIdMap) : result bool :=
  match fuel with
  | 0 => Timeout
  | S fuel' =>
      let checkStrictly := Config.checkStrictly (config s) in
      let checkedMap := default (checkedMap s) map in
      if inNodeMap s r then
        if truthy (checkedMap !! value (heap s r)) then Ret true
        else
          match asArray (children (heap s r)) with
          | Some l =>
              if (0 <? length l) && negb checkStrictly then
                every (fun c => isChecked fuel' s c (Some checkedMap)) l
              else if negb checkStrictly then
                parents <- getParents fuel' s r ;;
                Ret (existsb
                       (fun p => truthy (checkedMap !! value (heap s p)))
                       parents)
              else Ret false
          | None =>
              if negb checkStrictly then
                parents <- getParents fuel' s r ;;
                Ret (existsb
                       (fun p => truthy (checkedMap !! value (heap s p)))
                       parents)
              else Ret false
          end
      else Ret false
  end.

(** The callback of [children.some] in [isIndeterminate]; [childChecked] is
    the local that starts as [null] and keeps the first child's state. *)
Fixpoint someDisagree (ind chk : ref -> result bool)
  (childChecked : option bool) (l : list ref) : result bool :=
  match l with
  | [] => Ret false
  | c :: l' =>
      i <- ind c ;;
      if i then Ret true
      else
        first <- match childChecked with
                 | None => chk c
                 | Some b => Ret b
                 end ;;
        now <- chk c ;;
        if negb (eqb first now) then Ret true
        else someDisagree ind chk (Some first) l'
  end.

Fixpoint isIndeterminate (fuel : nat) (s : TreeStore) (r : ref)
  : result bool :=
  match fuel with
  | 0 => Timeout
  | S fuel' =>
      match asArray (children (heap s r)) with
      | Some l =>
          someDisagree (isIndeterminate fuel' s)
            (fun c => isChecked fuel' s c None) None l
      | None => Ret false
      end
  end.

Definition isFirst (s : TreeStore) (r : ref) : bool :=
  bool_decide (head (getSiblings s r) = Some r).

Definition isLast (s : TreeStore) (r : ref) : bool :=
  bool_decide (list.last (getSiblings s r) = Some r).

Definition isLeaf (s : TreeStore) (r : ref) : bool :=
  match children (heap s r) with
  | Kids l => length l <=? 0
  | Flag b => negb b
  | Null => true
  end.

(** [walk]: the node, then each child's [walk] in order. *)
Fixpoint walk (fuel : nat) (s : TreeStore) (r : ref) : result (list ref) :=
  match fuel with
  | 0 => Timeout
  | S fuel' =>
      match asArray (children (heap s r)) with
      | Some l =>
          if 0 <? length l then
            forEach (fun list c => w <- walk fuel' s c ;; Ret (list ++ w))
              l [r]
          else Ret [r]
      | None => Ret [r]
      end
  end.

Definition getTreeNodeModel (s : TreeStore) (r : ref) : TypeTreeNodeModel :=
  let n := heap s r in
  mkModel (dataset n) (actived n) (expanded n) (checked n)
    (indeterminate n) (loading n).

(** [getVisible] also records the filter's verdict in [filterMap]. *)
Definition getVisible (fuel : nat) (s : TreeStore) (r : ref)
  : result (TreeStore * bool) :=
  if inNodeMap s r then
    parents <- getParents fuel s r ;;
    let expandVisible :=
      if 0 <? length parents
      then forallb (fun p => isExpanded s p None) parents
      else true in
    match Config.filter (config s) with
    | Some filter =>
        let filterVisible := filter (getTreeNodeModel s r) in
        let v := value (heap s r) in
        let s1 :=
          if filterVisible then set_filterMap s (<[v := true]> (filterMap s))
          else if truthy (filterMap s !! v)
               then set_filterMap s (delete v (filterMap s))
               else s in
        Ret (updateFilterNodes s1, expandVisible || filterVisible)
    | None => Ret (s, expandVisible || false)
    end
  else Ret (s, false).

(** ** Recomputing the cached fields *)

Definition update (fuel : nat) (s : TreeStore) (r : ref) : result TreeStore :=
  let first := isFirst s r in
  let last := isLast s r in
  let leaf := isLeaf s r in
  lvl <- getLevel fuel s r ;;
  let act := isActived s r None in
  let ex := isExpanded s r None in
  let s1 := modify s r (with_view leaf first last lvl act ex) in
  sv <- getVisible fuel s1 r ;;
  Ret (updated (modify (fst sv) r (with_visible (snd sv))) r).

Definition updateChecked (fuel : nat) (s : TreeStore) (r : ref)
  : result TreeStore :=
  let s1 := modify s r (with_vmCheckable (isCheckable s r)) in
  if vmCheckable (heap s1 r) then
    c <- isChecked fuel s1 r None ;;
    let s2 := modify s1 r (with_checked c) in
    let s3 :=
      if checked (heap s2 r)
      then set_checkedMap s2 (<[value (heap s2 r) := true]> (checkedMap s2))
      else s2 in
    i <- isIndeterminate fuel s3 r ;;
    Ret (updated (modify s3 r (with_indeterminate i)) r)
  else Ret s1.

Fixpoint updateChildren (fuel : nat) (s : TreeStore) (r : ref)
  : result TreeStore :=
  match asArray (children (heap s r)) with
  | Some l =>
      match fuel with
      | 0 => Timeout
      | S fuel' =>
          forEach (fun s node =>
                     s1 <- update fuel' s node ;;
                     s2 <- updateChecked fuel' s1 node ;;
                     updateChildren fuel' s2 node) l s
      end
  | None => Ret s
  end.

Fixpoint updateParents (fuel : nat) (s : TreeStore) (r : ref)
  : result TreeStore :=
  match parent (heap s r) with
  | Some p =>
      match fuel with
      | 0 => Timeout
      | S fuel' =>
          s1 <- update fuel' s p ;;
          s2 <- updateChecked fuel' s1 p ;;
          updateParents fuel' s2 p
      end
  | None => Ret s
  end.

(** ** Detaching *)

Definition clean (s : TreeStore) (r : ref) : TreeStore :=
  let v := value (heap s r) in
  let s1 := set_activedMap s (delete v (activedMap s)) in
  let s2 := set_checkedMap s1 (delete v (checkedMap s1)) in
  let s3 := set_expandedMap s2 (delete v (expandedMap s2)) in
  set_nodeMap s3 (delete v (nodeMap s3)).

(** Writing back the array [getSiblings] handed out: the parent's child
    array, the root list, or a fresh array nobody else holds. *)
Definition setSiblings (s : TreeStore) (r : ref) (l : list ref) : TreeStore :=
  match parent (heap s r) with
  | Some p =>
      match children (heap s p) with
      | Kids _ => modify s p (with_children (Kids l))
      | _ => s
      end
  | None => set_tree_children s l
  end.

Definition remove (fuel : nat) (s : TreeStore) (r : ref) : result TreeStore :=
  nodes <- walk fuel s r ;;
  let siblings := getSiblings s r in
  let index := getIndex s r in
  let siblings' := splice index 1 [] siblings in
  let s1 := setSiblings s r siblings' in
  let s2 := foldl clean s1 nodes in
  s3 <- forEach (update fuel) siblings' s2 ;;
  s4 <- updateParents fuel s3 r ;;
  Ret (reflow s4).

(** ** Lazy loading *)

(** [loadChildren] up to its [await]: the rest of the body runs in a later
    task, after the caller has returned, and is not part of this call. *)
Definition loadChildren (fuel : nat) (s : TreeStore) (r : ref)
  : result TreeStore :=
  match children (heap s r), loading (heap s r) with
  | Flag true, false =>
      match Config.load (config s) with
      | Some _ => update fuel (modify s r (with_loading true)) r
      | None => Ret s
      end
  | _, _ => Ret s
  end.

Definition afterExpanded (fuel : nat) (s : TreeStore) (r : ref)
  : result TreeStore :=
  s1 <- update fuel s r ;;
  match expanded (heap s1 r), children (heap s1 r) with
  | true, Flag true => loadChildren fuel s1 r
  | _, _ => Ret s1
  end.

(** ** State switches

    Each switch works on [map]: the live map of the store when [directly]
    is set, a copy of it otherwise.  The value handed to [tree.getChecked],
    [tree.getExpanded] or [tree.getActived] at the [return] is that map, and
    the model returns it next to the store. *)

(** The flag [isExpandMutex] that the body of [shouldExpandNodes.forEach]
    computes for a node: its parent's, or the configuration's without one. *)
Definition governingMutex (s : TreeStore) (node : ref) : bool :=
  match parent (heap s node) with
  | Some p => isExpandMutex s p
  | None => Config.expandMutex (config s)
  end.

(** The body of [shouldExpandNodes.forEach] in [setExpanded]. *)
Definition expandOne (s : TreeStore) (map : TypeIdMap) (node : ref)
  : TypeIdMap :=
  let map1 :=
    if governingMutex s node
    then foldl (fun m snode => delete (value (heap s snode)) m) map
           (getSiblings s node)
    else map in
  <[value (heap s node) := true]> map1.

Definition setExpanded (fuel : nat) (s : TreeStore) (r : ref)
  (expanded directly : bool) : result (TreeStore * TypeIdMap) :=
  let map := expandedMap s in
  map' <-
    (if expanded then
       shouldExpandNodes <-
         (if Config.expandParent (config s)
          then ps <- getParents fuel s r ;; Ret (r :: ps)
          else Ret [r]) ;;
       Ret (foldl (expandOne s) map shouldExpandNodes)
     else Ret (delete (value (heap s r)) map)) ;;
  if directly then
    s1 <- afterExpanded fuel (set_expandedMap s map') r ;;
    s2 <- update fuel s1 r ;;
    s3 <- updateChildren fuel s2 r ;;
    Ret (s3, expandedMap s3)
  else Ret (s, map').

Definition setActived (fuel : nat) (s : TreeStore) (r : ref)
  (actived directly : bool) : result (TreeStore * TypeIdMap) :=
  let map := activedMap s in
  let v := value (heap s r) in
  let map' :=
    if isActivable s r then
      if actived then
        <[v := true]> (if Config.activeMultiple (config s) then map else ∅)
      else delete v map
    else map in
  if directly then
    s1 <- update fuel (set_activedMap s map') r ;;
    Ret (s1, activedMap s1)
  else Ret (s, map').

(** Modelled from the spec: [tree.getRelatedNodes] is a method of the store
    class, which this file only imports.  The spec gives the nodes it
    returns for an identity as the subtree of the node the index holds for
    it together with that node's ancestors, visited bottom-up. *)
Definition getRelatedNodes (fuel : nat) (s : TreeStore) (values : list string)
  : result (list ref) :=
  forEach (fun acc v =>
             match nodeMap s !! v with
             | Some node =>
                 subtree <- walk fuel s node ;;
                 parents <- getParents fuel s node ;;
                 Ret (acc ++ rev subtree ++ parents)
             | None => Ret acc
             end) values [].

(** Lines 722-746 of [setChecked]: what the call writes into [map]. *)
Definition setChecked_write (fuel : nat) (s : TreeStore) (r : ref)
  (checked : bool) (map : TypeIdMap) : result TypeIdMap :=
  differs <-
    (if isCheckable s r
     then c <- isChecked fuel s r None ;; Ret (negb (eqb checked c))
     else Ret false) ;;
  if differs then
    if Config.checkStrictly (config s) then
      Ret (if checked then <[value (heap s r) := true]> map
           else delete (value (heap s r)) map)
    else
      children <- walk fuel s r ;;
      let map1 :=
        foldl (fun m node =>
                 if checked then <[value (heap s node) := true]> m
                 else delete (value (heap s node)) m) map children in
      parents <- getParents fuel s r ;;
      Ret (foldl (fun m node => delete (value (heap s node)) m) map1 parents)
  else Ret map.

Definition setChecked (fuel : nat) (s : TreeStore) (r : ref)
  (checked directly : bool) : result (TreeStore * TypeIdMap) :=
  map' <- setChecked_write fuel s r checked (checkedMap s) ;;
  if directly then
    let s1 := set_checkedMap s map' in
    s2 <-
      (if Config.checkStrictly (config s1) then updateChecked fuel s1 r
       else
         relatedNodes <- getRelatedNodes fuel s1 [value (heap s1 r)] ;;
         forEach (updateChecked fuel) relatedNodes s1) ;;
    Ret (s2, checkedMap s2)
  else Ret (s, map').

(** ** Moving a node under another parent *)

(** The body of [nodes.forEach] in [appendTo]: re-registration. *)
Definition register (s : TreeStore) (node : ref) : TreeStore :=
  let v := value (heap s node) in
  let s1 := set_nodeMap s (<[v := node]> (nodeMap s)) in
  if expanded (heap s1 node)
  then set_expandedMap s1 (<[v := true]> (expandedMap s1))
  else s1.

(** The part of [appendTo] after its guards.  [parentNode] is a [TreeNode],
    so [siblings] is always its child array. *)
Definition appendTo_move (fuel : nat) (s : TreeStore) (r parentNode : ref)
  (index : option Z) : result TreeStore :=
  s1 <- remove fuel s r ;;
  let s2 := modify s1 r (with_parent (Some parentNode)) in
  let s3 :=
    match asArray (children (heap s2 parentNode)) with
    | Some _ => s2
    | None => modify s2 parentNode (with_children (Kids []))
    end in
  let siblings := default [] (asArray (children (heap s3 parentNode))) in
  let siblings' :=
    match index with
    | Some i => splice i 0 [r] siblings
    | None => siblings ++ [r]
    end in
  let s4 := modify s3 parentNode (with_children (Kids siblings')) in
  nodes <- walk fuel s4 r ;;
  let s5 := foldl register s4 nodes in
  updateNodes <- walk fuel s5 parentNode ;;
  s6 <- forEach (fun s node =>
                   s' <- update fuel s node ;; updateChecked fuel s' node)
          updateNodes s5 ;;
  Ret (reflow s6).

Definition appendTo (fuel : nat) (s : TreeStore) (r : ref)
  (parent : option ref) (index : option Z) : result TreeStore :=
  match parent with
  | None => Ret s
  | Some parentNode =>
      targetParents <- getParents fuel s parentNode ;;
      let includeCurrent :=
        existsb (fun node =>
                   bool_decide (value (heap s node) = value (heap s r)))
          targetParents in
      if includeCurrent then Ret s
      else
        match asArray (children (heap s parentNode)) with
        | Some l =>
            let targetIndex := default 0%Z index in
            match at_index l targetIndex with
            | None => Throw TypeError
            | Some targetPosNode =>
                if bool_decide
                     (value (heap s targetPosNode) = value (heap s r))
                then Ret s
                else appendTo_move fuel s r parentNode index
            end
        | None => appendTo_move fuel s r parentNode index
        end
  end.

(** ** Inserting next to a node *)

(** [insert] for an [item] that is a [TreeNode].  (For raw data the method
    builds a new [TreeNode]; the constructor is not part of this model.) *)
Definition insert (fuel : nat) (s : TreeStore) (r item : ref)
  (index : option Z) : result TreeStore :=
  s' <- appendTo fuel s item (parent (heap s r)) index ;;
  Ret (reflow s').

Definition insertBefore (fuel : nat) (s : TreeStore) (r newData : ref)
  : result TreeStore :=
  let index := getIndex s r in
  insert fuel s r newData (Some index).

Definition insertAfter (fuel : nat) (s : TreeStore) (r newData : ref)
  : result TreeStore :=
  let index := getIndex s r in
  insert fuel s r newData (Some (index + 1)%Z).

(** ** Well-formed object graphs *)

Record ranked (depth height : ref -> nat) (s : TreeStore) : Prop := {
  ranked_parent :
    forall r p, parent (heap s r) = Some p -> depth p < depth r;
  ranked_children :
    forall r l c, children (heap s r) = Kids l -> c ∈ l -> height c < height r;
}.

Definition forest (fuel : nat) (s : TreeStore) : Prop :=
  exists depth height,
    ranked depth height s /\
    forall x y z, depth x + depth y + height z < fuel.


(** ** Example stores *)

Definition blank : TreeNode :=
  mkTreeNode "" "" "" None Null false false false false false false false
    false false false false false false false 0 false.

(** A node with identity [v] and no per-node override. *)
Definition node (v : string) (p : option ref) (c : Children) : TreeNode :=
  mkTreeNode v v v p c false false false false false false false
    false false false false false false false 0 false.

(** Everything off but [checkable]. *)
Definition checkableConfig : Config.t :=
  Config.mk true false false false false false false false None None.

(** P with the single child C, whose own last child has been removed: the
    child array of C is the empty array [remove] leaves behind. *)
Definition pruned : TreeStore :=
  mkTreeStore checkableConfig (list_to_map [("P", 0); ("C", 1)]) ∅ ∅ ∅ ∅ [0]
    (fun r => match r with
              | 0 => node "P" None (Kids [1])
              | 1 => node "C" (Some 0) (Kids [])
              | _ => blank
              end).

(** The heap of most examples: P with the children A and B. *)
Definition familyHeap : ref -> TreeNode :=
  fun r => match r with
           | 0 => node "P" None (Kids [1; 2])
           | 1 => node "A" (Some 0) Null
           | 2 => node "B" (Some 0) Null
           | _ => blank
           end.

Definition familyIndex : gmap string ref :=
  list_to_map [("P", 0); ("A", 1); ("B", 2)].

(** A is checked, B is not. *)
Definition family : TreeStore :=
  mkTreeStore checkableConfig familyIndex {[ "A" := true ]} ∅ ∅ ∅ [0]
    familyHeap.

Definition strictConfig : Config.t :=
  Config.mk true false false false false true false false None None.

(** Strict mode, after checking P and then A. *)
Definition strictFamily : TreeStore :=
  mkTreeStore strictConfig familyIndex
    (<[ "A" := true ]> {[ "P" := true ]}) ∅ ∅ ∅ [0] familyHeap.

(** A filter that accepts the payload of A only; nothing is expanded. *)
Definition filterConfig : Config.t :=
  Config.mk true false false false false false false false None
    (Some (fun m => String.eqb (m_data m) "A")).

Definition filtered : TreeStore :=
  mkTreeStore filterConfig familyIndex ∅ ∅ ∅ ∅ [0] familyHeap.

(** P carries the mutex switch; its children are A, B and C, and P and A
    are expanded. *)
Definition accordion : TreeStore :=
  mkTreeStore checkableConfig
    (list_to_map [("P", 0); ("A", 1); ("B", 2); ("C", 3)]) ∅
    (<[ "A" := true ]> {[ "P" := true ]}) ∅ ∅ [0]
    (fun r => match r with
              | 0 => mkTreeNode "P" "P" "P" None (Kids [1; 2; 3])
                       false false false true true false false false false
                       false false false false true 0 false
              | 1 => node "A" (Some 0) Null
              | 2 => node "B" (Some 0) Null
              | 3 => node "C" (Some 0) Null
              | _ => blank
              end).

(** Two root-level nodes; B carries the mutex switch itself, the
    configuration does not, and A is expanded. *)
Definition rootPair : TreeStore :=
  mkTreeStore checkableConfig (list_to_map [("A", 0); ("B", 1)]) ∅
    {[ "A" := true ]} ∅ ∅ [0; 1]
    (fun r => match r with
              | 0 => node "A" None Null
              | 1 => mkTreeNode "B" "B" "B" None Null
                       false false false false true false false false false
                       false false false false true 0 false
              | _ => blank
              end).

(** ** The claims as the specification words them *)

(** C1 as stated: the ancestor case is for a node with no child array. *)
Definition isChecked_as_specified (fuel : nat) (s : TreeStore) (r : ref)
  (map : option TypeIdMap) : Prop :=
  inNodeMap s r = true ->
  exists b,
    isChecked fuel s r map = Ret b /\
    let m := default (checkedMap s) map in
    let strict := Config.checkStrictly (config s) in
    (b = true <->
       m !! value (heap s r) = Some true
       \/ (strict = false /\
           exists l, children (heap s r) = Kids l /\ l <> [] /\
                     forall c, c ∈ l -> isChecked fuel s c (Some m) = Ret true)
       \/ (strict = false /\
           asArray (children (heap s r)) = None /\
           exists ps p, getParents fuel s r = Ret ps /\ p ∈ ps /\
                        m !! value (heap s p) = Some true)).

(** C7 as stated: the parent of one checked and one unchecked child is
    indeterminate and unchecked. *)
Definition isIndeterminate_as_specified (fuel : nat) (s : TreeStore) (r : ref)
  : Prop :=
  exists b,
    isIndeterminate fuel s r = Ret b /\
    (asArray (children (heap s r)) = None -> b = false) /\
    (forall l, children (heap s r) = Kids l ->
       (b = true <->
          (exists c, c ∈ l /\ isIndeterminate fuel s c = Ret true)
          \/ exists c1 c2 k, c1 ∈ l /\ c2 ∈ l /\
                             isChecked fuel s c1 None = Ret k /\
                             isChecked fuel s c2 None = Ret (negb k))) /\
    (forall c1 c2 k,
       children (heap s r) = Kids [c1; c2] ->
       isChecked fuel s c1 None = Ret k ->
       isChecked fuel s c2 None = Ret (negb k) ->
       b = true /\ isChecked fuel s r None = Ret false).


(** C5 as stated: a root-level candidate is governed by its own flag. *)
Definition governingMutex_as_specified (s : TreeStore) (node : ref) : bool :=
  match parent (heap s node) with
  | Some p => isExpandMutex s p
  | None => isExpandMutex s node
  end.

Definition setExpanded_as_specified (fuel : nat) (s : TreeStore) (r : ref)
  (directly : bool) : Prop :=
  exists ps s' m,
    getParents fuel s r = Ret ps /\
    setExpanded fuel s r true directly = Ret (s', m) /\
    let candidates :=
      r :: (if Config.expandParent (config s) then ps else []) in
    ((forall c c' x, c ∈ candidates -> c' ∈ candidates ->
                     x ∈ getSiblings s c' ->
                     value (heap s x) = value (heap s c) -> x = c') ->
     forall c, c ∈ candidates ->
       m !! value (heap s c) = Some true /\
       (governingMutex_as_specified s c = true ->
        forall x, x ∈ getSiblings s c -> x <> c ->
                  m !! value (heap s x) = None)).

(** ** Stores that differ in cached fields and map contents only *)

(** [s'] has the links, identities, per-node switches, index, root list and
    configuration of [s]. *)
Record same_shape (s s' : TreeStore) : Prop := {
  shape_config : config s' = config s;
  shape_nodeMap : nodeMap s' = nodeMap s;
  shape_roots : tree_children s' = tree_children s;
  shape_value : forall r, value (heap s' r) = value (heap s r);
  shape_parent : forall r, parent (heap s' r) = parent (heap s r);
  shape_children : forall r, children (heap s' r) = children (heap s r);
  shape_checkable : forall r, checkable (heap s' r) = checkable (heap s r);
  shape_activable : forall r, activable (heap s' r) = activable (heap s r);
  shape_expandMutex :
    forall r, expandMutex (heap s' r) = expandMutex (heap s r);
}.

(** What a recomputation pass may do to a store: keep its shape and its
    expanded and activated maps, and add bindings to the checked map. *)
Record evolves (s s' : TreeStore) : Prop := {
  ev_shape : same_shape s s';
  ev_expanded : expandedMap s' = expandedMap s;
  ev_actived : activedMap s' = activedMap s;
  ev_checked :
    forall k, checkedMap s !! k = Some true -> checkedMap s' !! k = Some true;
}.

(** A field writer that leaves the links and switches alone. *)
Definition cache_only (f : TreeNode -> TreeNode) : Prop :=
  forall n, value (f n) = value n /\ parent (f n) = parent n /\
            children (f n) = children n /\ checkable (f n) = checkable n /\
            activable (f n) = activable n /\ expandMutex (f n) = expandMutex n.


(** Every binding of [m] is a binding of [m']. *)
Definition grows (m m' : TypeIdMap) : Prop :=
  forall k, m !! k = Some true -> m' !! k = Some true.

(** A computation that returns or runs forever, but raises nothing. *)
Definition noThrow {A} (m : result A) : Prop := forall e, m <> Throw e.

(** P with the children C and N, after the only child of C was removed:
    the child array of C is empty. *)
Definition emptied : TreeStore :=
  mkTreeStore checkableConfig (list_to_map [("P", 0); ("C", 1); ("N", 2)])
    ∅ ∅ ∅ ∅ [0]
    (fun r => match r with
              | 0 => node "P" None (Kids [1; 2])
              | 1 => node "C" (Some 0) (Kids [])
              | 2 => node "N" (Some 0) Null
              | _ => blank
              end).

(** [filtered] after a recomputation pass: the filter map holds A. *)
Definition matched : TreeStore :=
  mkTreeStore filterConfig familyIndex ∅ ∅ ∅ {[ "A" := true ]} [0]
    familyHeap.

(** A recomputation pass whose writes stay inside the objects [W]: every
    other object is as before, and so is every binding of the checked and
    filter maps under an identity that no object of [W] carries. *)
Record writes (W : list ref) (s s' : TreeStore) : Prop := {
  w_evolves : evolves s s';
  w_heap : forall x, x ∉ W -> heap s' x = heap s x;
  w_checked :
    forall k, (forall x, x ∈ W -> value (heap s x) <> k) ->
              checkedMap s' !! k = checkedMap s !! k;
  w_filter :
    forall k, (forall x, x ∈ W -> value (heap s x) <> k) ->
              filterMap s' !! k = filterMap s !! k;
}.

(** * Proofs *)

Lemma bind_Ret {A B} (m : result A) (f : A -> result B) (b : B) :
  bind m f = Ret b <-> exists a, m = Ret a /\ f a = Ret b.
Proof.
  destruct m as [a| |]; simpl; split.
  - eauto.
  - intros (a' & [= <-] & H). exact H.
  - discriminate.
  - intros (a' & [=] & _).
  - discriminate.
  - intros (a' & [=] & _).
Qed.

Ltac inv_bind H :=
  let a := fresh "a" in
  let Ha := fresh "Ha" in
  apply bind_Ret in H; destruct H as (a & Ha & H).

(** *** More fuel never changes a result *)

Lemma parentsFrom_mono f f' s o ps :
  parentsFrom f s o = Ret ps -> f <= f' -> parentsFrom f' s o = Ret ps.
Proof.
  revert f' o ps. induction f as [|f IH]; intros f' o ps H Hle.
  - destruct o; [discriminate|]. destruct f'; exact H.
  - destruct o as [p|]; [|destruct f'; exact H].
    destruct f' as [|f']; [lia|]. simpl in *.
    inv_bind H. rewrite (IH f' _ _ Ha) by lia. exact H.
Qed.

Lemma getParents_mono f f' s r ps :
  getParents f s r = Ret ps -> f <= f' -> getParents f' s r = Ret ps.
Proof. apply parentsFrom_mono. Qed.

Lemma every_mono {A} (f g : A -> result bool) l b :
  (forall x b, f x = Ret b -> g x = Ret b) ->
  every f l = Ret b -> every g l = Ret b.
Proof.
  intros Hfg. induction l as [|x l IH]; simpl; [done|].
  intros H. inv_bind H. rewrite (Hfg _ _ Ha). simpl.
  destruct a; auto.
Qed.

Lemma isChecked_mono f f' s r map b :
  isChecked f s r map = Ret b -> f <= f' -> isChecked f' s r map = Ret b.
Proof.
  revert f' r map b. induction f as [|f IH]; intros f' r map b H Hle.
  - discriminate.
  - destruct f' as [|f']; [lia|]. simpl in *.
    destruct (inNodeMap s r); [|done].
    destruct (truthy _); [done|].
    assert (Hpar : forall b,
      (parents <- getParents f s r ;;
       Ret (existsb (fun p => truthy (default (checkedMap s) map
                                        !! value (heap s p))) parents)) = Ret b ->
      (parents <- getParents f' s r ;;
       Ret (existsb (fun p => truthy (default (checkedMap s) map
                                        !! value (heap s p))) parents)) = Ret b).
    { intros b' Hb. inv_bind Hb.
      rewrite (getParents_mono _ f' _ _ _ Ha) by lia. exact Hb. }
    destruct (asArray _) as [l|]; [|destruct (negb _); auto].
    destruct (_ && _); [|destruct (negb _); auto].
    revert H. apply every_mono. intros x b' Hx. apply (IH f'); [done|lia].
Qed.

Lemma forEach_mono {A S} (f g : S -> A -> result S) l s s' :
  (forall s x s', f s x = Ret s' -> g s x = Ret s') ->
  forEach f l s = Ret s' -> forEach g l s = Ret s'.
Proof.
  intros Hfg. revert s. induction l as [|x l IH]; simpl; [done|].
  intros s H. inv_bind H. rewrite (Hfg _ _ _ Ha). simpl. auto.
Qed.

Lemma walk_mono f f' s r l :
  walk f s r = Ret l -> f <= f' -> walk f' s r = Ret l.
Proof.
  revert f' r l. induction f as [|f IH]; intros f' r l H Hle; [discriminate|].
  destruct f' as [|f']; [lia|]. simpl in *.
  destruct (asArray _) as [k|]; [|done].
  destruct (0 <? length k); [|done].
  revert H. apply forEach_mono. intros acc x acc' Hx.
  inv_bind Hx. rewrite (IH f' _ _ Ha) by lia. exact Hx.
Qed.

Lemma someDisagree_mono (ind ind' chk chk' : ref -> result bool) o l b :
  (forall x b, ind x = Ret b -> ind' x = Ret b) ->
  (forall x b, chk x = Ret b -> chk' x = Ret b) ->
  someDisagree ind chk o l = Ret b -> someDisagree ind' chk' o l = Ret b.
Proof.
  intros Hi Hc. revert o. induction l as [|c l IH]; simpl; [done|].
  intros o H. inv_bind H. rewrite (Hi _ _ Ha). simpl.
  destruct a; [done|].
  inv_bind H. inv_bind H.
  assert (Hfirst : match o with None => chk' c | Some b => Ret b end = Ret a).
  { destruct o; simpl in *; auto. }
  rewrite Hfirst. simpl. rewrite (Hc _ _ Ha1). simpl.
  destruct (negb _); auto.
Qed.

Lemma isIndeterminate_mono f f' s r b :
  isIndeterminate f s r = Ret b -> f <= f' -> isIndeterminate f' s r = Ret b.
Proof.
  revert f' r b. induction f as [|f IH]; intros f' r b H Hle; [discriminate|].
  destruct f' as [|f']; [lia|]. simpl in *.
  destruct (asArray _) as [l|]; [|done].
  revert H. apply someDisagree_mono.
  - intros x b' Hx. apply (IH f'); [done|lia].
  - intros x b' Hx. apply (isChecked_mono f); [done|lia].
Qed.

(** *** On a forest every traversal returns *)

Section Ranked.
Context (depth height : ref -> nat) (s : TreeStore).
Hypothesis Hrk : ranked depth height s.

Lemma parentsFrom_total f o :
  (forall p, o = Some p -> depth p < f) ->
  exists ps, parentsFrom f s o = Ret ps /\
             forall a, a ∈ ps -> forall p, o = Some p -> depth a <= depth p.
Proof.
  revert o. induction f as [|f IH]; intros o Ho.
  - destruct o as [p|]; [specialize (Ho p eq_refl); lia|].
    exists []. split; [done|]. intros a Ha. inversion Ha.
  - destruct o as [p|]; [|exists []; split; [done|intros a Ha; inversion Ha]].
    simpl. destruct (IH (parent (heap s p))) as (ps & Hps & Hd).
    { intros q Hq. apply (ranked_parent _ _ _ Hrk) in Hq.
      specialize (Ho p eq_refl). lia. }
    exists (p :: ps). rewrite Hps. split; [done|].
    intros a Ha q [= <-]. apply elem_of_cons in Ha as [->|Ha]; [lia|].
    destruct (parent (heap s p)) as [q|] eqn:Hq.
    + specialize (Hd a Ha q eq_refl).
      apply (ranked_parent _ _ _ Hrk) in Hq. lia.
    + destruct f; simpl in Hps; injection Hps as <-; inversion Ha.
Qed.

Lemma getParents_total f r :
  depth r <= f ->
  exists ps, getParents f s r = Ret ps /\
             forall a, a ∈ ps -> depth a < depth r.
Proof.
  intros Hf. unfold getParents.
  destruct (parentsFrom_total f (parent (heap s r))) as (ps & Hps & Hd).
  { intros p Hp. apply (ranked_parent _ _ _ Hrk) in Hp. lia. }
  exists ps. split; [done|]. intros a Ha.
  destruct (parent (heap s r)) as [p|] eqn:Hp.
  - specialize (Hd a Ha p eq_refl).
    apply (ranked_parent _ _ _ Hrk) in Hp. lia.
  - destruct f; simpl in Hps; injection Hps as <-; inversion Ha.
Qed.

Lemma every_total {A} (f : A -> result bool) l :
  (forall x, x ∈ l -> exists b, f x = Ret b) -> exists b, every f l = Ret b.
Proof.
  induction l as [|x l IH]; intros H; simpl; [eauto|].
  destruct (H x) as [b Hb]; [left|]. rewrite Hb. simpl.
  destruct b; [|eauto]. apply IH. intros y Hy. apply H. by right.
Qed.
End Ranked.

Lemma truthy_true o : truthy o = true <-> o = Some true.
Proof. destruct o as [[]|]; simpl; split; congruence. Qed.

Lemma every_true {A} (f : A -> result bool) l :
  every f l = Ret true <-> forall x, x ∈ l -> f x = Ret true.
Proof.
  induction l as [|x l IH]; simpl.
  - split; [intros _ y Hy; inversion Hy|done].
  - split.
    + intros H. inv_bind H. destruct a; [|discriminate].
      intros y Hy. apply elem_of_cons in Hy as [->|Hy]; [done|].
      by apply IH.
    + intros H. rewrite (H x) by left. simpl. apply IH.
      intros y Hy. apply H. by right.
Qed.

Lemma existsb_elem {A} (f : A -> bool) l :
  existsb f l = true <-> exists x, x ∈ l /\ f x = true.
Proof.
  rewrite existsb_exists. split; intros (x & Hx & Hf); exists x;
    (split; [by apply list_elem_of_In|done]).
Qed.

Lemma forest_pos fuel s : forest fuel s -> 0 < fuel.
Proof. intros (d & h & _ & Hb). specialize (Hb 0 0 0). lia. Qed.

Lemma isChecked_total depth height s f r map :
  ranked depth height s ->
  (forall x, depth x + height r < f) ->
  exists b, isChecked f s r map = Ret b.
Proof.
  intros Hrk. revert r map. induction f as [|f IH]; intros r map Hf.
  { specialize (Hf 0). lia. }
  simpl. destruct (inNodeMap s r); [|eauto].
  destruct (truthy _); [eauto|].
  assert (Hpar : exists b,
    (parents <- getParents f s r ;;
     Ret (existsb (fun p => truthy (default (checkedMap s) map
                                      !! value (heap s p))) parents)) = Ret b).
  { destruct (getParents_total _ _ _ Hrk f r) as (ps & -> & _); [|simpl; eauto].
    specialize (Hf r). lia. }
  destruct (asArray _) as [l|] eqn:Hl; [|destruct (negb _); eauto].
  destruct (_ && _); [|destruct (negb _); eauto].
  apply every_total. intros c Hc. apply IH.
  destruct (children (heap s r)) eqn:Hch; try discriminate.
  injection Hl as ->. intros x.
  pose proof (ranked_children _ _ _ Hrk _ _ _ Hch Hc).
  specialize (Hf x). lia.
Qed.

Lemma isChecked_forest fuel s r map :
  forest fuel s -> exists b, isChecked fuel s r map = Ret b.
Proof.
  intros (d & h & Hrk & Hb3).
  assert (Hb : forall x y, d x + h y < fuel)
    by (intros x y; specialize (Hb3 x 0 y); lia). apply (isChecked_total d h); [done|].
  intros x. apply Hb.
Qed.

Lemma getParents_forest fuel s r :
  forest fuel s -> exists ps, getParents fuel s r = Ret ps.
Proof.
  intros (d & h & Hrk & Hb3).
  assert (Hb : forall x y, d x + h y < fuel)
    by (intros x y; specialize (Hb3 x 0 y); lia).
  destruct (getParents_total d h s Hrk fuel r) as (ps & Hps & _); [|eauto].
  specialize (Hb r 0). lia.
Qed.

(** The shape of a whole tree is still a forest for the children, with one
    unit of fuel less. *)
Lemma isChecked_child depth height s f r l c map b :
  ranked depth height s ->
  (forall x y, depth x + height y < S f) ->
  children (heap s r) = Kids l -> c ∈ l ->
  isChecked (S f) s c map = Ret b <-> isChecked f s c map = Ret b.
Proof.
  intros Hrk Hb Hch Hc. split; [|intros H; apply (isChecked_mono f); [done|lia]].
  intros H.
  destruct (isChecked_total depth height s f c map Hrk) as [b' Hb'].
  { intros x. pose proof (ranked_children _ _ _ Hrk _ _ _ Hch Hc).
    specialize (Hb x r). lia. }
  rewrite (isChecked_mono f (S f) _ _ _ _ Hb') in H by lia. congruence.
Qed.


(** *** The example stores are forests *)

Lemma family_forest cfg nm cm em am fm roots :
  forest 5 (mkTreeStore cfg nm cm em am fm roots familyHeap).
Proof.
  exists (fun r => match r with 0 => 0 | _ => 1 end),
         (fun r => match r with 0 => 1 | _ => 0 end).
  split; [split|].
  - intros [|[|[|r]]] p; simpl; intros [= <-]; lia.
  - intros [|[|[|r]]] l c; simpl; intros [= <-] Hc.
    apply elem_of_cons in Hc as [->|Hc]; [lia|].
    apply list_elem_of_singleton in Hc as ->. lia.
  - intros [|x] [|y] [|z]; lia.
Qed.

Lemma accordion_forest : forest 5 accordion.
Proof.
  exists (fun r => match r with 0 => 0 | _ => 1 end),
         (fun r => match r with 0 => 1 | _ => 0 end).
  split; [split|].
  - intros [|[|[|[|r]]]] p; simpl; intros [= <-]; lia.
  - intros [|[|[|[|r]]]] l c; simpl; intros [= <-] Hc.
    set_unfold in Hc. destruct Hc as [->|[->|[->|[]]]]; lia.
  - intros [|x] [|y] [|z]; lia.
Qed.

Lemma pruned_forest : forest 5 pruned.
Proof.
  exists (fun r => match r with 0 => 0 | _ => 1 end),
         (fun r => match r with 0 => 1 | _ => 0 end).
  split; [split|].
  - intros [|[|r]] p; simpl; intros [= <-]; lia.
  - intros [|[|r]] l c; simpl; intros [= <-] Hc.
    + apply list_elem_of_singleton in Hc as ->. lia.
    + inversion Hc.
  - intros [|x] [|y] [|z]; lia.
Qed.

Lemma forallb_elem {A} (f : A -> bool) l :
  forallb f l = true <-> forall x, x ∈ l -> f x = true.
Proof.
  rewrite forallb_forall. split; intros H x Hx; apply H;
    by apply list_elem_of_In.
Qed.


Lemma someDisagree_total (ind chk : ref -> result bool) o l :
  (forall c, c ∈ l -> exists b, ind c = Ret b) ->
  (forall c, c ∈ l -> exists b, chk c = Ret b) ->
  exists b, someDisagree ind chk o l = Ret b.
Proof.
  intros Hi Hc. revert o. induction l as [|c l IH]; intros o; simpl; [eauto|].
  destruct (Hi c) as [i ->]; [left|]. simpl. destruct i; [eauto|].
  destruct (Hc c) as [k Hk]; [left|].
  assert (exists k0, match o with None => chk c | Some b => Ret b end = Ret k0)
    as [k0 ->] by (destruct o; eauto).
  simpl. rewrite Hk. simpl. destruct (negb _); [eauto|].
  apply IH; intros x Hx; [apply Hi|apply Hc]; by right.
Qed.

Lemma isIndeterminate_total depth height s f r :
  ranked depth height s ->
  (forall x, depth x + height r < f) ->
  exists b, isIndeterminate f s r = Ret b.
Proof.
  intros Hrk. revert r. induction f as [|f IH]; intros r Hf.
  { specialize (Hf 0). lia. }
  simpl. destruct (children (heap s r)) as [l| |] eqn:Hch; simpl; eauto.
  assert (Hlt : forall c x, c ∈ l -> depth x + height c < f).
  { intros c x Hc. pose proof (ranked_children _ _ _ Hrk _ _ _ Hch Hc).
    specialize (Hf x). lia. }
  apply someDisagree_total; intros c Hc.
  - apply IH. intros x. by apply Hlt.
  - apply (isChecked_total depth height); [done|]. intros x. by apply Hlt.
Qed.

Lemma isIndeterminate_forest fuel s r :
  forest fuel s -> exists b, isIndeterminate fuel s r = Ret b.
Proof.
  intros (d & h & Hrk & Hb3).
  assert (Hb : forall x y, d x + h y < fuel)
    by (intros x y; specialize (Hb3 x 0 y); lia). apply (isIndeterminate_total d h); [done|].
  intros x. apply Hb.
Qed.

Lemma isIndeterminate_child depth height s f r l c b :
  ranked depth height s ->
  (forall x y, depth x + height y < S f) ->
  children (heap s r) = Kids l -> c ∈ l ->
  isIndeterminate (S f) s c = Ret b <-> isIndeterminate f s c = Ret b.
Proof.
  intros Hrk Hb Hch Hc.
  split; [|intros H; apply (isIndeterminate_mono f); [done|lia]].
  intros H.
  destruct (isIndeterminate_total depth height s f c Hrk) as [b' Hb'].
  { intros x. pose proof (ranked_children _ _ _ Hrk _ _ _ Hch Hc).
    specialize (Hb x r). lia. }
  rewrite (isIndeterminate_mono f (S f) _ _ _ Hb') in H by lia. congruence.
Qed.

Lemma isChecked_live f s r :
  isChecked f s r None = isChecked f s r (Some (checkedMap s)).
Proof. by destruct f. Qed.

(** With the first child's state [k0] already taken, the scan answers true
    exactly when a child is indeterminate or differs from [k0]. *)
Lemma someDisagree_Some (ind chk : ref -> result bool) k0 l b :
  (forall c, c ∈ l -> exists k, chk c = Ret k) ->
  someDisagree ind chk (Some k0) l = Ret b ->
  (b = true <->
     (exists c, c ∈ l /\ ind c = Ret true)
     \/ exists c, c ∈ l /\ chk c = Ret (negb k0)).
Proof.
  revert b. induction l as [|c l IH]; intros b Hc H; simpl in H.
  - injection H as <-. split; [discriminate|].
    intros [(c & Hin & _)|(c & Hin & _)]; inversion Hin.
  - inv_bind H. destruct a.
    { injection H as <-. split; [|done]. intros _. left. exists c.
      split; [left|done]. }
    simpl in H. inv_bind H.
    destruct (eqb k0 a) eqn:Heq; simpl in H.
    + apply eqb_prop in Heq as <-.
      apply IH in H; [|intros x Hx; apply Hc; by right].
      rewrite H. split.
      * intros [(x & Hx & Hi)|(x & Hx & Hk)]; [left|right]; exists x;
          (split; [by right|done]).
      * intros [(x & Hx & Hi)|(x & Hx & Hk)].
        -- apply elem_of_cons in Hx as [->|Hx]; [congruence|]. left. eauto.
        -- apply elem_of_cons in Hx as [->|Hx]; [|right; eauto].
           rewrite Ha0 in Hk. injection Hk. by destruct k0.
    + injection H as <-. split; [|done]. intros _. right. exists c.
      split; [left|]. rewrite Ha0. f_equal. destruct k0, a; done.
Qed.

Lemma someDisagree_None (ind chk : ref -> result bool) l b :
  (forall c, c ∈ l -> exists k, chk c = Ret k) ->
  someDisagree ind chk None l = Ret b ->
  (b = true <->
     (exists c, c ∈ l /\ ind c = Ret true)
     \/ exists c1 c2 k, c1 ∈ l /\ c2 ∈ l /\
                        chk c1 = Ret k /\ chk c2 = Ret (negb k)).
Proof.
  destruct l as [|c l]; intros Hc H; simpl in H.
  - injection H as <-. split; [discriminate|].
    intros [(c & Hin & _)|(c1 & c2 & k & Hin & _)]; inversion Hin.
  - inv_bind H. destruct a.
    { injection H as <-. split; [|done]. intros _. left. exists c.
      split; [left|done]. }
    inv_bind H. inv_bind H. rewrite Ha0 in Ha1. injection Ha1 as <-.
    rewrite eqb_reflx in H. simpl in H.
    apply someDisagree_Some in H; [|intros x Hx; apply Hc; by right].
    rewrite H. split.
    + intros [(x & Hx & Hi)|(x & Hx & Hk)].
      * left. exists x. split; [by right|done].
      * right. exists c, x, a. split; [left|]. split; [by right|done].
    + intros [(x & Hx & Hi)|(c1 & c2 & k & H1 & H2 & Hk1 & Hk2)].
      * apply elem_of_cons in Hx as [->|Hx]; [congruence|]. left. eauto.
      * right.
        apply elem_of_cons in H1 as [->|H1]; apply elem_of_cons in H2 as [->|H2].
        -- rewrite Hk1 in Hk2. injection Hk2. by destruct k.
        -- exists c2. split; [done|]. rewrite Ha0 in Hk1. by injection Hk1 as ->.
        -- exists c1. split; [done|]. rewrite Ha0 in Hk2. injection Hk2 as ->.
           by rewrite negb_involutive.
        -- destruct (Bool.bool_dec k a) as [->|Hne].
           ++ exists c2. done.
           ++ exists c1. split; [done|]. rewrite Hk1. f_equal.
              by destruct k, a.
Qed.


Lemma forEach_total {A S} (f : S -> A -> result S) l s :
  (forall s x, x ∈ l -> exists s', f s x = Ret s') ->
  exists s', forEach f l s = Ret s'.
Proof.
  revert s. induction l as [|x l IH]; intros s H; simpl; [eauto|].
  destruct (H s x) as [s1 ->]; [left|]. simpl.
  apply IH. intros s2 y Hy. apply H. by right.
Qed.

Lemma walk_total depth height s f r :
  ranked depth height s -> height r < f -> exists l, walk f s r = Ret l.
Proof.
  intros Hrk. revert r. induction f as [|f IH]; intros r Hf; [lia|].
  simpl. destruct (children (heap s r)) as [l| |] eqn:Hch; simpl; eauto.
  destruct (0 <? length l); [|eauto].
  apply forEach_total. intros acc c Hc.
  destruct (IH c) as [w ->]; [|simpl; eauto].
  pose proof (ranked_children _ _ _ Hrk _ _ _ Hch Hc). lia.
Qed.

Lemma walk_forest fuel s r : forest fuel s -> exists l, walk fuel s r = Ret l.
Proof.
  intros (d & h & Hrk & Hb3).
  assert (Hb : forall x y, d x + h y < fuel)
    by (intros x y; specialize (Hb3 x 0 y); lia). apply (walk_total d h); [done|].
  specialize (Hb 0 r). lia.
Qed.

Lemma setChecked_write_forest fuel s r v map :
  forest fuel s -> exists m, setChecked_write fuel s r v map = Ret m.
Proof.
  intros Hf. unfold setChecked_write.
  assert (exists d,
    (if isCheckable s r
     then c <- isChecked fuel s r None ;; Ret (negb (eqb v c))
     else Ret false) = Ret d) as [d ->].
  { destruct (isCheckable s r); [|eauto].
    destruct (isChecked_forest fuel s r None Hf) as [c ->]. simpl. eauto. }
  simpl. destruct d; [|eauto].
  destruct (Config.checkStrictly (config s)); [eauto|].
  destruct (walk_forest fuel s r Hf) as [w ->]. simpl.
  destruct (getParents_forest fuel s r Hf) as [ps ->]. simpl. eauto.
Qed.


Lemma foldl_delete_lookup {V} (g : ref -> string) (l : list ref)
  (m : gmap string V) (k : string) :
  foldl (fun m x => delete (g x) m) m l !! k =
  if decide (k ∈ g <$> l) then None else m !! k.
Proof.
  revert m. induction l as [|x l IH]; intros m; [done|].
  cbn [foldl]. rewrite IH, fmap_cons.
  - idtac.
    destruct (decide (k ∈ g <$> l)) as [Hin|Hnin].
    + rewrite decide_True; [done|by right].
    + destruct (decide (k = g x)) as [->|Hne].
      * rewrite decide_True by left. apply lookup_delete_eq.
      * rewrite decide_False; [by apply lookup_delete_ne|].
        intros H. apply elem_of_cons in H as [?|?]; done.
Qed.



(** *** Recomputation keeps the shape of the store *)

Lemma same_shape_refl s : same_shape s s.
Proof. by split. Qed.

Lemma same_shape_trans s1 s2 s3 :
  same_shape s1 s2 -> same_shape s2 s3 -> same_shape s1 s3.
Proof.
  intros [] []. split; intros; etransitivity; eauto.
Qed.

Lemma heap_modify s r f r' :
  heap (modify s r f) r' = if decide (r = r') then f (heap s r) else heap s r'.
Proof.
  unfold modify. simpl. destruct (decide (r = r')) as [->|Hne].
  - apply fn_lookup_insert.
  - by apply fn_lookup_insert_ne.
Qed.

Lemma modify_shape s r f : cache_only f -> same_shape s (modify s r f).
Proof.
  intros Hf. split; try done; intros r'; rewrite heap_modify;
    destruct (decide (r = r')) as [->|]; try done; apply Hf.
Qed.

Lemma modify_evolves s r f : cache_only f -> evolves s (modify s r f).
Proof. intros Hf. split; [by apply modify_shape|done..]. Qed.

Lemma evolves_refl s : evolves s s.
Proof. split; [apply same_shape_refl|done..]. Qed.

Lemma evolves_trans s1 s2 s3 : evolves s1 s2 -> evolves s2 s3 -> evolves s1 s3.
Proof.
  intros [] []. split.
  - by eapply same_shape_trans.
  - congruence.
  - congruence.
  - auto.
Qed.

Lemma cache_only_view a b c d e f : cache_only (with_view a b c d e f).
Proof. by intros []. Qed.
Lemma cache_only_visible b : cache_only (with_visible b).
Proof. by intros []. Qed.
Lemma cache_only_vmCheckable b : cache_only (with_vmCheckable b).
Proof. by intros []. Qed.
Lemma cache_only_checked b : cache_only (with_checked b).
Proof. by intros []. Qed.
Lemma cache_only_indeterminate b : cache_only (with_indeterminate b).
Proof. by intros []. Qed.
Lemma cache_only_loading b : cache_only (with_loading b).
Proof. by intros []. Qed.

Lemma ranked_shape d h s s' : same_shape s s' -> ranked d h s -> ranked d h s'.
Proof.
  intros Hs [Hp Hc]. split.
  - intros r p. rewrite (shape_parent _ _ Hs). apply Hp.
  - intros r l c. rewrite (shape_children _ _ Hs). apply Hc.
Qed.

Lemma parentsFrom_shape f s s' o :
  same_shape s s' -> parentsFrom f s' o = parentsFrom f s o.
Proof.
  intros Hs. revert o. induction f as [|f IH]; intros [p|]; simpl; try done.
  by rewrite (shape_parent _ _ Hs), IH.
Qed.

Lemma getParents_shape f s s' r :
  same_shape s s' -> getParents f s' r = getParents f s r.
Proof.
  intros Hs. unfold getParents.
  by rewrite (shape_parent _ _ Hs), (parentsFrom_shape _ _ _ _ Hs).
Qed.



Lemma inNodeMap_shape s s' r : same_shape s s' -> inNodeMap s' r = inNodeMap s r.
Proof.
  intros Hs. unfold inNodeMap.
  by rewrite (shape_nodeMap _ _ Hs), (shape_value _ _ Hs).
Qed.

Lemma isCheckable_shape s s' r :
  same_shape s s' -> isCheckable s' r = isCheckable s r.
Proof.
  intros Hs. unfold isCheckable.
  by rewrite (shape_config _ _ Hs), (shape_checkable _ _ Hs).
Qed.

Lemma getVisible_evolves f s r s' v :
  getVisible f s r = Ret (s', v) -> evolves s s'.
Proof.
  unfold getVisible. destruct (inNodeMap s r).
  - intros H. inv_bind H.
    destruct (Config.filter (config s)) as [g|].
    + injection H as <- _. unfold updateFilterNodes.
      destruct (g _); [by split|].
      destruct (truthy _); [by split|apply evolves_refl].
    + injection H as <- _. apply evolves_refl.
  - intros [= <- _]. apply evolves_refl.
Qed.

Lemma update_evolves f s r s' : update f s r = Ret s' -> evolves s s'.
Proof.
  unfold update. intros H. inv_bind H. inv_bind H. injection H as <-.
  destruct a0 as [s1 v]. simpl. unfold updated.
  eapply evolves_trans; [apply modify_evolves, cache_only_view|].
  eapply evolves_trans; [by eapply getVisible_evolves|].
  apply modify_evolves, cache_only_visible.
Qed.

Lemma updateChecked_evolves f s r s' : updateChecked f s r = Ret s' -> evolves s s'.
Proof.
  unfold updateChecked.
  set (s1 := modify s r (with_vmCheckable (isCheckable s r))).
  assert (H1 : evolves s s1) by apply modify_evolves, cache_only_vmCheckable.
  destruct (vmCheckable (heap s1 r)); [|by intros [= <-]].
  intros H. inv_bind H. inv_bind H. injection H as <-. unfold updated.
  eapply evolves_trans; [exact H1|].
  eapply evolves_trans; [apply modify_evolves, (cache_only_checked a)|].
  eapply evolves_trans; [|apply modify_evolves, cache_only_indeterminate].
  destruct (checked _); [|apply evolves_refl].
  split; [by split|done|done|]. simpl. intros k Hk.
  rewrite lookup_insert. by case_decide.
Qed.

Lemma forEach_evolves {A} (f : TreeStore -> A -> result TreeStore) l s s' :
  (forall s x s', x ∈ l -> f s x = Ret s' -> evolves s s') ->
  forEach f l s = Ret s' -> evolves s s'.
Proof.
  revert s. induction l as [|x l IH]; intros s Hf H; simpl in H.
  - injection H as <-. apply evolves_refl.
  - inv_bind H. eapply evolves_trans; [eapply Hf; [left|done]|].
    apply IH; [|done]. intros s1 y s2 Hy. apply Hf. by right.
Qed.

Lemma updateChildren_evolves f s r s' :
  updateChildren f s r = Ret s' -> evolves s s'.
Proof.
  revert s r s'. induction f as [|f IH]; intros s r s' H; simpl in H.
  - destruct (asArray _); [discriminate|]. injection H as <-.
    apply evolves_refl.
  - destruct (asArray _) as [l|]; [|injection H as <-; apply evolves_refl].
    revert H. apply forEach_evolves. intros s1 c s2 _ H.
    inv_bind H. inv_bind H.
    eapply evolves_trans; [by eapply update_evolves|].
    eapply evolves_trans; [by eapply updateChecked_evolves|].
    by eapply IH.
Qed.

Lemma loadChildren_evolves f s r s' :
  loadChildren f s r = Ret s' -> evolves s s'.
Proof.
  unfold loadChildren.
  destruct (children (heap s r)) as [|[]|]; try (intros [= <-]; apply evolves_refl).
  destruct (loading (heap s r)); try (intros [= <-]; apply evolves_refl).
  destruct (Config.load (config s)); [|intros [= <-]; apply evolves_refl].
  intros H. eapply evolves_trans; [|by eapply update_evolves].
  apply modify_evolves, cache_only_loading.
Qed.

Lemma afterExpanded_evolves f s r s' :
  afterExpanded f s r = Ret s' -> evolves s s'.
Proof.
  unfold afterExpanded. intros H. inv_bind H.
  eapply evolves_trans; [by eapply update_evolves|].
  destruct (expanded (heap a r)); [|injection H as <-; apply evolves_refl].
  destruct (children (heap a r)) as [|[]|];
    try (injection H as <-; apply evolves_refl).
  by eapply loadChildren_evolves.
Qed.

Lemma forEach_inv {A S} (Inv : S -> Prop) (f : S -> A -> result S) l s :
  Inv s ->
  (forall s x, x ∈ l -> Inv s -> exists s', f s x = Ret s' /\ Inv s') ->
  exists s', forEach f l s = Ret s' /\ Inv s'.
Proof.
  revert s. induction l as [|x l IH]; intros s Hs Hf; simpl; [eauto|].
  destruct (Hf s x) as (s1 & -> & H1); [left|done|]. simpl.
  apply IH; [done|]. intros s2 y Hy. apply Hf. by right.
Qed.

Lemma getVisible_total d h s f r :
  ranked d h s -> d r <= f -> exists sv, getVisible f s r = Ret sv.
Proof.
  intros Hrk Hf. unfold getVisible. destruct (inNodeMap s r); [|eauto].
  destruct (getParents_total d h s Hrk f r Hf) as (ps & -> & _). simpl.
  destruct (Config.filter (config s)); eauto.
Qed.

Lemma update_total d h s f r :
  ranked d h s -> d r <= f -> exists s', update f s r = Ret s'.
Proof.
  intros Hrk Hf. unfold update, getLevel.
  destruct (getParents_total d h s Hrk f r Hf) as (ps & -> & _). simpl.
  edestruct (getVisible_total d h) as [sv ->]; [|done|simpl; eauto].
  eapply ranked_shape; [|done]. apply modify_shape, cache_only_view.
Qed.

Lemma updateChecked_total d h s f r :
  ranked d h s -> (forall x, d x + h r < f) ->
  exists s', updateChecked f s r = Ret s'.
Proof.
  intros Hrk Hf. unfold updateChecked.
  set (s1 := modify s r (with_vmCheckable (isCheckable s r))).
  assert (H1 : ranked d h s1).
  { eapply ranked_shape; [|done]. apply modify_shape, cache_only_vmCheckable. }
  destruct (vmCheckable (heap s1 r)); [|eauto].
  destruct (isChecked_total d h s1 f r None H1 Hf) as [c ->]. cbn [bind].
  set (s2 := modify s1 r (with_checked c)).
  assert (H2 : ranked d h s2).
  { eapply ranked_shape; [|done]. apply modify_shape, cache_only_checked. }
  set (s3 := if checked (heap s2 r)
             then set_checkedMap s2
                    (<[value (heap s2 r) := true]> (checkedMap s2))
             else s2).
  assert (H3 : ranked d h s3).
  { unfold s3. destruct (checked (heap s2 r)); [|done].
    eapply ranked_shape; [|done]. by split. }
  destruct (isIndeterminate_total d h s3 f r H3 Hf) as [i ->]. cbn [bind]. eauto.
Qed.

Lemma updateChildren_total d h s f r :
  ranked d h s -> (forall x, d x + h r < f) ->
  exists s', updateChildren f s r = Ret s'.
Proof.
  revert s r. induction f as [|f IH]; intros s r Hrk Hf.
  { specialize (Hf 0). lia. }
  simpl. destruct (children (heap s r)) as [l| |] eqn:Hch; simpl; eauto.
  destruct (forEach_inv (ranked d h)
              (fun s node =>
                 s1 <- update f s node ;;
                 s2 <- updateChecked f s1 node ;; updateChildren f s2 node)
              l s Hrk) as (s' & Hs' & _); [|eauto].
  intros s0 c Hc H0.
  pose proof (ranked_children _ _ _ Hrk _ _ _ Hch Hc) as Hlt.
  assert (Hfc : forall x, d x + h c < f) by (intros x; specialize (Hf x); lia).
  destruct (update_total d h s0 f c H0) as [s1 H1].
  { specialize (Hfc c). lia. }
  rewrite H1. simpl.
  assert (R1 : ranked d h s1).
  { eapply ranked_shape; [|done]. by eapply ev_shape, update_evolves. }
  destruct (updateChecked_total d h s1 f c R1 Hfc) as [s2 H2].
  rewrite H2. simpl.
  assert (R2 : ranked d h s2).
  { eapply ranked_shape; [|done]. by eapply ev_shape, updateChecked_evolves. }
  destruct (IH s2 c R2 Hfc) as [s3 H3]. exists s3. split; [done|].
  eapply ranked_shape; [|done]. by eapply ev_shape, updateChildren_evolves.
Qed.

Lemma loadChildren_total d h s f r :
  ranked d h s -> d r <= f -> exists s', loadChildren f s r = Ret s'.
Proof.
  intros Hrk Hf. unfold loadChildren.
  destruct (children (heap s r)) as [|[]|]; eauto.
  destruct (loading (heap s r)); eauto.
  destruct (Config.load (config s)); eauto.
  apply (update_total d h); [|done].
  eapply ranked_shape; [|done]. apply modify_shape, cache_only_loading.
Qed.

Lemma afterExpanded_total d h s f r :
  ranked d h s -> d r <= f -> exists s', afterExpanded f s r = Ret s'.
Proof.
  intros Hrk Hf. unfold afterExpanded.
  destruct (update_total d h s f r Hrk Hf) as [s1 H1]. rewrite H1. simpl.
  destruct (expanded (heap s1 r)); [|eauto].
  destruct (children (heap s1 r)) as [|[]|]; eauto.
  apply (loadChildren_total d h); [|done].
  eapply ranked_shape; [|done]. by eapply ev_shape, update_evolves.
Qed.

(** *** The accordion step *)

Lemma expandOne_lookup s m c k :
  expandOne s m c !! k =
  if decide (k = value (heap s c)) then Some true
  else if governingMutex s c
       then if decide (k ∈ (fun x => value (heap s x)) <$> getSiblings s c)
            then None else m !! k
       else m !! k.
Proof.
  unfold expandOne. rewrite lookup_insert.
  destruct (decide (value (heap s c) = k)) as [<-|Hne].
  - by rewrite decide_True.
  - rewrite decide_False by done.
    destruct (governingMutex s c); [|done].
    apply (foldl_delete_lookup (fun x => value (heap s x))).
Qed.

(** A binding survives the later steps when only the candidate itself
    carries the key among its siblings. *)
Lemma expand_keeps_binding s l m k :
  m !! k = Some true ->
  (forall c x, c ∈ l -> x ∈ getSiblings s c -> value (heap s x) = k -> x = c) ->
  foldl (expandOne s) m l !! k = Some true.
Proof.
  revert m. induction l as [|c l IH]; intros m Hm H; simpl; [done|].
  apply IH; [|intros c' x Hc'; apply H; by right].
  rewrite expandOne_lookup. case_decide as Hk; [done|].
  destruct (governingMutex s c); [|done].
  rewrite decide_False; [done|].
  intros Hin. apply list_elem_of_fmap in Hin as (x & Hx & Hin).
  rewrite (H c x) in Hx; [done|left|done|done].
Qed.

Lemma expand_keeps_absence s l m k :
  m !! k = None ->
  (forall c, c ∈ l -> value (heap s c) <> k) ->
  foldl (expandOne s) m l !! k = None.
Proof.
  revert m. induction l as [|c l IH]; intros m Hm H; simpl; [done|].
  apply IH; [|intros c' Hc'; apply H; by right].
  rewrite expandOne_lookup. rewrite decide_False.
  - destruct (governingMutex s c); [|done]. by case_decide.
  - intros ->. by apply (H c); [left|].
Qed.

Lemma expand_all s l m :
  (forall c c' x, c ∈ l -> c' ∈ l -> x ∈ getSiblings s c' ->
                  value (heap s x) = value (heap s c) -> x = c') ->
  forall c, c ∈ l ->
    foldl (expandOne s) m l !! value (heap s c) = Some true /\
    (governingMutex s c = true ->
     forall x, x ∈ getSiblings s c -> x <> c ->
               foldl (expandOne s) m l !! value (heap s x) = None).
Proof.
  revert m. induction l as [|c0 l IH]; intros m H c Hc; [inversion Hc|].
  simpl. apply elem_of_cons in Hc as [->|Hc].
  - split.
    + apply expand_keeps_binding.
      * rewrite expandOne_lookup. by rewrite decide_True.
      * intros c' x Hc' Hx Hv. apply (H c0 c' x); [left|by right|done|done].
    + intros Hgov x Hx Hne. apply expand_keeps_absence.
      * rewrite expandOne_lookup, Hgov. rewrite decide_False.
        -- rewrite decide_True; [done|]. apply list_elem_of_fmap. eauto.
        -- intros Hv. apply Hne. apply (H c0 c0 x); [left|left|done|done].
      * intros c' Hc' Hv. apply Hne.
        apply (H c' c0 x); [by right|left|done|done].
  - apply IH; [|done]. intros a a' x Ha Ha'. apply H; by right.
Qed.


(** *** Propagation of the checked state *)

Lemma every_true_impl {A} (f g : A -> result bool) l :
  (forall x, x ∈ l -> f x = Ret true -> g x = Ret true) ->
  every f l = Ret true -> every g l = Ret true.
Proof.
  intros H. rewrite !every_true. intros Hf x Hx. apply H; auto.
Qed.

(** A checked node stays checked when bindings are added to the map. *)
Lemma isChecked_grows f s s' r m m' :
  same_shape s s' -> grows m m' ->
  isChecked f s r (Some m) = Ret true -> isChecked f s' r (Some m') = Ret true.
Proof.
  intros Hs Hg. revert r. induction f as [|f IH]; intros r H; [discriminate|].
  simpl in *. rewrite (inNodeMap_shape _ _ _ Hs), (shape_value _ _ Hs).
  rewrite (shape_config _ _ Hs), (shape_children _ _ Hs).
  destruct (inNodeMap s r); [|discriminate].
  destruct (truthy (m' !! value (heap s r))) eqn:Hm'; [done|].
  destruct (truthy (m !! value (heap s r))) eqn:Hm.
  { apply truthy_true in Hm. apply Hg in Hm. apply truthy_true in Hm.
    congruence. }
  assert (Hpar :
    (parents <- getParents f s r ;;
     Ret (existsb (fun p => truthy (m !! value (heap s p))) parents)) = Ret true ->
    (parents <- getParents f s' r ;;
     Ret (existsb (fun p => truthy (m' !! value (heap s' p))) parents)) = Ret true).
  { intros Hp. inv_bind Hp. rewrite (getParents_shape _ _ _ _ Hs), Ha. simpl.
    injection Hp as Hp. f_equal. apply existsb_elem in Hp as (p & Hp & Ht).
    apply existsb_elem. exists p. split; [done|].
    rewrite (shape_value _ _ Hs). apply truthy_true. apply Hg.
    by apply truthy_true. }
  destruct (asArray _) as [l|]; [|destruct (negb _); auto].
  destruct (_ && _); [|destruct (negb _); auto].
  revert H. apply every_true_impl. intros c _. apply IH.
Qed.

Lemma isChecked_evolves f s s' r :
  evolves s s' ->
  isChecked f s r None = Ret true -> isChecked f s' r None = Ret true.
Proof.
  intros E. rewrite !isChecked_live.
  apply isChecked_grows; [apply E|]. intros k. apply (ev_checked _ _ E).
Qed.

Lemma isChecked_same f s s' r map :
  same_shape s s' -> checkedMap s' = checkedMap s ->
  isChecked f s' r map = isChecked f s r map.
Proof.
  intros Hs Hm. revert r map. induction f as [|f IH]; intros r map; [done|].
  simpl. rewrite (inNodeMap_shape _ _ _ Hs), (shape_value _ _ Hs), Hm.
  rewrite (shape_config _ _ Hs), (shape_children _ _ Hs).
  rewrite (getParents_shape _ _ _ _ Hs).
  destruct (inNodeMap s r); [|done].
  destruct (truthy _); [done|].
  assert (forall ps,
    existsb (fun p => truthy (default (checkedMap s) map !! value (heap s' p))) ps =
    existsb (fun p => truthy (default (checkedMap s) map !! value (heap s p))) ps)
    as Hex.
  { intros ps. induction ps as [|p ps IHp]; simpl; [done|].
    by rewrite (shape_value _ _ Hs), IHp. }
  destruct (asArray _) as [l|].
  - destruct (_ && _).
    + clear Hex. induction l as [|c l IHl]; simpl; [done|].
      rewrite IH. destruct (isChecked f s c _) as [[]| |]; simpl; auto.
    + destruct (negb _); [|done].
      destruct (getParents f s r); simpl; [|done..]. by rewrite Hex.
  - destruct (negb _); [|done].
    destruct (getParents f s r); simpl; [|done..]. by rewrite Hex.
Qed.

(** What [updateChecked] does to the checked map. *)
Lemma updateChecked_map f s r s' :
  updateChecked f s r = Ret s' ->
  if isCheckable s r then
    exists c, isChecked f s r None = Ret c /\
              checkedMap s' =
              if c then <[value (heap s r) := true]> (checkedMap s)
              else checkedMap s
  else checkedMap s' = checkedMap s.
Proof.
  unfold updateChecked.
  set (s1 := modify s r (with_vmCheckable (isCheckable s r))).
  assert (Hs1 : same_shape s s1) by apply modify_shape, cache_only_vmCheckable.
  assert (Hv : vmCheckable (heap s1 r) = isCheckable s r).
  { unfold s1. rewrite heap_modify, decide_True by done. by destruct (heap s r). }
  rewrite Hv. destruct (isCheckable s r); [|by intros [= <-]].
  intros H. inv_bind H. inv_bind H. injection H as <-.
  rewrite (isChecked_same _ s s1) in Ha by done.
  exists a. split; [done|]. unfold updated, s1, modify. simpl.
  rewrite !fn_lookup_insert. simpl. destruct a; [|done]. simpl.
  reflexivity.
Qed.

(** A node of the index, outside strict mode, whose children are all
    checked is checked. *)
Lemma isChecked_by_children d h s f r kids :
  ranked d h s -> (forall x y, d x + h y < S f) ->
  Config.checkStrictly (config s) = false ->
  inNodeMap s r = true ->
  children (heap s r) = Kids kids -> kids <> [] ->
  (forall c, c ∈ kids -> isChecked (S f) s c None = Ret true) ->
  isChecked (S f) s r None = Ret true.
Proof.
  intros Hrk Hb Hstrict Hin Hch Hne Hall. simpl.
  rewrite Hin, Hch, Hstrict. destruct (truthy _); [done|]. simpl.
  destruct kids as [|c0 kids]; [done|].
  change (0 <? length (c0 :: kids)) with true. cbn [andb negb].
  apply every_true. intros c Hc. rewrite <- isChecked_live.
  apply (isChecked_child d h s f r (c0 :: kids) c); auto.
Qed.

Lemma propagate_total d h fuel l s :
  ranked d h s -> (forall x y, d x + h y < fuel) ->
  exists s', forEach (updateChecked fuel) l s = Ret s' /\ evolves s s'.
Proof.
  intros Hrk Hb.
  apply (forEach_inv (evolves s)); [apply evolves_refl|].
  intros s1 x _ E1.
  destruct (updateChecked_total d h s1 fuel x) as [s2 H2].
  - eapply ranked_shape; [apply E1|done].
  - intros y. apply Hb.
  - exists s2. split; [done|].
    eapply evolves_trans; [done|]. by eapply updateChecked_evolves.
Qed.

(** Propagation over a list that holds [a] leaves [a] bound when [a] is
    checkable and all its children are checked. *)
Lemma propagate_binds d h fuel l : forall s a kids,
  ranked d h s -> (forall x y, d x + h y < fuel) ->
  Config.checkStrictly (config s) = false ->
  isCheckable s a = true -> inNodeMap s a = true ->
  children (heap s a) = Kids kids -> kids <> [] ->
  (forall c, c ∈ kids -> isChecked fuel s c None = Ret true) ->
  a ∈ l ->
  exists s', forEach (updateChecked fuel) l s = Ret s' /\ evolves s s' /\
             checkedMap s' !! value (heap s a) = Some true.
Proof.
  induction l as [|x l IH]; intros s a kids Hrk Hb Hstrict Hck Hin Hch Hne Hall Ha;
    [inversion Ha|].
  simpl.
  destruct (updateChecked_total d h s fuel x Hrk) as [s1 H1].
  { intros y. apply Hb. }
  rewrite H1. simpl.
  pose proof (updateChecked_evolves _ _ _ _ H1) as E1.
  assert (R1 : ranked d h s1) by (eapply ranked_shape; [apply E1|done]).
  destruct (decide (x = a)) as [->|Hxa].
  - apply updateChecked_map in H1. rewrite Hck in H1.
    destruct H1 as (c & Hc & Hmap).
    assert (c = true) as ->.
    { destruct fuel as [|f]; [discriminate|].
      rewrite (isChecked_by_children d h s f a kids) in Hc; auto. congruence. }
    destruct (propagate_total d h fuel l s1 R1 Hb) as (s' & Hs' & E').
    exists s'. split; [done|]. split; [by eapply evolves_trans|].
    apply (ev_checked _ _ E'). rewrite Hmap. apply lookup_insert_eq.
  - apply elem_of_cons in Ha as [->|Ha]; [done|].
    destruct (IH s1 a kids) as (s' & Hs' & E' & Hbound); auto.
    + by rewrite (shape_config _ _ (ev_shape _ _ E1)).
    + by rewrite (isCheckable_shape _ _ _ (ev_shape _ _ E1)).
    + by rewrite (inNodeMap_shape _ _ _ (ev_shape _ _ E1)).
    + by rewrite (shape_children _ _ (ev_shape _ _ E1)).
    + intros c Hc. apply (isChecked_evolves _ s); auto.
    + exists s'. split; [done|]. split; [by eapply evolves_trans|].
      by rewrite <- (shape_value _ _ (ev_shape _ _ E1)).
Qed.


(** *** Nothing but [appendTo] raises *)

Lemma noThrow_Ret {A} (a : A) : noThrow (Ret a).
Proof. intros e. discriminate. Qed.

Lemma noThrow_Timeout {A} : noThrow (@Timeout A).
Proof. intros e. discriminate. Qed.

Lemma noThrow_bind {A B} (m : result A) (f : A -> result B) :
  noThrow m -> (forall a, m = Ret a -> noThrow (f a)) -> noThrow (bind m f).
Proof.
  intros Hm Hf. destruct m as [a|e|]; simpl.
  - by apply Hf.
  - by destruct (Hm e).
  - apply noThrow_Timeout.
Qed.

Lemma noThrow_forEach {A S} (f : S -> A -> result S) l s :
  (forall s x, noThrow (f s x)) -> noThrow (forEach f l s).
Proof.
  intros Hf. revert s. induction l as [|x l IH]; intros s; simpl.
  - apply noThrow_Ret.
  - apply noThrow_bind; auto.
Qed.

Lemma noThrow_every {A} (f : A -> result bool) l :
  (forall x, noThrow (f x)) -> noThrow (every f l).
Proof.
  intros Hf. induction l as [|x l IH]; simpl.
  - apply noThrow_Ret.
  - apply noThrow_bind; [done|]. intros [] _; [done|apply noThrow_Ret].
Qed.

Lemma noThrow_parentsFrom f s o : noThrow (parentsFrom f s o).
Proof.
  revert o. induction f as [|f IH]; intros [p|]; simpl;
    try apply noThrow_Ret; try apply noThrow_Timeout.
  apply noThrow_bind; [done|]. intros; apply noThrow_Ret.
Qed.

Lemma noThrow_getParents f s r : noThrow (getParents f s r).
Proof. apply noThrow_parentsFrom. Qed.

Lemma noThrow_walk f s r : noThrow (walk f s r).
Proof.
  revert r. induction f as [|f IH]; intros r; simpl; [apply noThrow_Timeout|].
  destruct (asArray _) as [l|]; [|apply noThrow_Ret].
  destruct (0 <? length l); [|apply noThrow_Ret].
  apply noThrow_forEach. intros acc c.
  apply noThrow_bind; [done|]. intros; apply noThrow_Ret.
Qed.

Lemma noThrow_isChecked f s r map : noThrow (isChecked f s r map).
Proof.
  revert r map. induction f as [|f IH]; intros r map; simpl;
    [apply noThrow_Timeout|].
  destruct (inNodeMap s r); [|apply noThrow_Ret].
  destruct (truthy _); [apply noThrow_Ret|].
  assert (noThrow
    (parents <- getParents f s r ;;
     Ret (existsb (fun p => truthy (default (checkedMap s) map
                                      !! value (heap s p))) parents))).
  { apply noThrow_bind; [apply noThrow_getParents|]. intros; apply noThrow_Ret. }
  destruct (asArray _) as [l|]; [|destruct (negb _); [done|apply noThrow_Ret]].
  destruct (_ && _); [|destruct (negb _); [done|apply noThrow_Ret]].
  by apply noThrow_every.
Qed.

Lemma noThrow_someDisagree (ind chk : ref -> result bool) o l :
  (forall c, noThrow (ind c)) -> (forall c, noThrow (chk c)) ->
  noThrow (someDisagree ind chk o l).
Proof.
  intros Hi Hc. revert o. induction l as [|c l IH]; intros o; simpl.
  - apply noThrow_Ret.
  - apply noThrow_bind; [done|]. intros [] _; [apply noThrow_Ret|].
    apply noThrow_bind; [destruct o; [apply noThrow_Ret|done]|]. intros a _.
    apply noThrow_bind; [done|]. intros b _.
    destruct (negb _); [apply noThrow_Ret|done].
Qed.

Lemma noThrow_isIndeterminate f s r : noThrow (isIndeterminate f s r).
Proof.
  revert r. induction f as [|f IH]; intros r; simpl; [apply noThrow_Timeout|].
  destruct (asArray _); [|apply noThrow_Ret].
  apply noThrow_someDisagree; [done|]. intros c. apply noThrow_isChecked.
Qed.

Lemma noThrow_getVisible f s r : noThrow (getVisible f s r).
Proof.
  unfold getVisible. destruct (inNodeMap s r); [|apply noThrow_Ret].
  apply noThrow_bind; [apply noThrow_getParents|]. intros ps _.
  destruct (Config.filter (config s)); apply noThrow_Ret.
Qed.

Lemma noThrow_update f s r : noThrow (update f s r).
Proof.
  unfold update, getLevel.
  apply noThrow_bind.
  { apply noThrow_bind; [apply noThrow_getParents|]. intros; apply noThrow_Ret. }
  intros lvl _. apply noThrow_bind; [apply noThrow_getVisible|].
  intros; apply noThrow_Ret.
Qed.

Lemma noThrow_updateChecked f s r : noThrow (updateChecked f s r).
Proof.
  unfold updateChecked. destruct (vmCheckable _); [|apply noThrow_Ret].
  apply noThrow_bind; [apply noThrow_isChecked|]. intros c _.
  apply noThrow_bind; [apply noThrow_isIndeterminate|].
  intros; apply noThrow_Ret.
Qed.

Lemma noThrow_updateParents f s r : noThrow (updateParents f s r).
Proof.
  revert s r. induction f as [|f IH]; intros s r; simpl;
    destruct (parent (heap s r));
    try apply noThrow_Ret; try apply noThrow_Timeout.
  apply noThrow_bind; [apply noThrow_update|]. intros s1 _.
  apply noThrow_bind; [apply noThrow_updateChecked|]. intros s2 _. apply IH.
Qed.

Lemma noThrow_remove f s r : noThrow (remove f s r).
Proof.
  unfold remove. apply noThrow_bind; [apply noThrow_walk|]. intros nodes _.
  apply noThrow_bind.
  { apply noThrow_forEach. intros; apply noThrow_update. }
  intros s3 _. apply noThrow_bind; [apply noThrow_updateParents|].
  intros; apply noThrow_Ret.
Qed.

(** *** A node among its own children *)

Lemma forEach_stuck {A S} (f : S -> A -> result S) l s x :
  (forall s y, noThrow (f s y)) -> x ∈ l -> (forall s, f s x = Timeout) ->
  forEach f l s = Timeout.
Proof.
  intros Hn Hx Hstuck. revert s.
  induction l as [|y l IH]; intros s; [inversion Hx|]. simpl.
  destruct (f s y) as [s'|e|] eqn:Hy; simpl; [|by destruct (Hn s y e)|done].
  apply elem_of_cons in Hx as [->|Hx]; [|by apply IH].
  by rewrite Hstuck in Hy.
Qed.

Lemma walk_self_loop f s r l :
  children (heap s r) = Kids l -> r ∈ l -> walk f s r = Timeout.
Proof.
  intros Hch Hr. induction f as [|f IH]; simpl; [done|].
  rewrite Hch. simpl. destruct l as [|c l]; [inversion Hr|].
  change (0 <? length (c :: l)) with true. cbn [andb].
  apply (forEach_stuck _ _ _ r); [|done|].
  - intros acc y. apply noThrow_bind; [apply noThrow_walk|].
    intros; apply noThrow_Ret.
  - intros acc. by rewrite IH.
Qed.

Lemma splice_insert_elem i x l : x ∈ splice i 0 [x] l.
Proof. unfold splice. rewrite !elem_of_app. right. left. by left. Qed.

(** Once past its guards, [appendTo] of a node under itself never returns:
    the node ends up in its own child array and [walk] recurses forever. *)
Lemma appendTo_move_self f s r index : appendTo_move f s r r index = Timeout.
Proof.
  unfold appendTo_move.
  destruct (remove f s r) as [s1|e|] eqn:Hrm; simpl;
    [|by destruct (noThrow_remove f s r e)|done].
  match goal with
  | |- (nodes <- walk f ?s4 r ;; _) = _ =>
      assert (exists l, children (heap s4 r) = Kids l /\ r ∈ l) as (l & Hl & Hr)
  end.
  { rewrite heap_modify, decide_True by done. eexists. split; [reflexivity|].
    destruct index; [apply splice_insert_elem|].
    apply elem_of_app. right. by left. }
  by rewrite (walk_self_loop _ _ _ _ Hl Hr).
Qed.

Lemma parentsFrom_None f s : parentsFrom f s None = Ret [].
Proof. by destruct f. Qed.

(** The cycle guard of [appendTo]: a target parent with an ancestor that
    carries the node's identity is refused, and the store is untouched. *)
Lemma appendTo_into_descendant f s r p index anc a :
  getParents f s p = Ret anc -> a ∈ anc ->
  value (heap s a) = value (heap s r) ->
  appendTo f s r (Some p) index = Ret s.
Proof.
  intros Hanc Ha Hv. unfold appendTo. rewrite Hanc. simpl.
  assert (existsb (fun node => bool_decide (value (heap s node) = value (heap s r)))
            anc = true) as ->; [|done].
  apply existsb_elem. exists a. split; [done|]. by apply bool_decide_eq_true.
Qed.

(** The position guard of [appendTo] reads [children[targetIndex].value]
    without checking that the slot holds a node. *)
Lemma appendTo_empty_slot f s r p index anc l :
  getParents f s p = Ret anc ->
  (forall a, a ∈ anc -> value (heap s a) <> value (heap s r)) ->
  children (heap s p) = Kids l ->
  at_index l (default 0%Z index) = None ->
  appendTo f s r (Some p) index = Throw TypeError.
Proof.
  intros Hanc Hne Hch Hat. unfold appendTo. rewrite Hanc. cbn [bind].
  assert (existsb (fun node => bool_decide (value (heap s node) = value (heap s r)))
            anc = false) as ->.
  { apply not_true_is_false. intros H. apply existsb_elem in H as (a & Ha & H).
    apply bool_decide_eq_true in H. by apply (Hne a). }
  rewrite Hch. cbn [asArray]. by rewrite Hat.
Qed.


(** *** Footprints of the recomputation passes *)

Lemma writes_refl W s : writes W s s.
Proof. split; [apply evolves_refl|done..]. Qed.

Lemma writes_weaken W W' s s' :
  (forall x, x ∈ W -> x ∈ W') -> writes W s s' -> writes W' s s'.
Proof.
  intros Hsub [E Hh Hc Hf]. split; [done|..].
  - intros x Hx. apply Hh. intros H. by apply Hx, Hsub.
  - intros k Hk. apply Hc. intros x Hx. by apply Hk, Hsub.
  - intros k Hk. apply Hf. intros x Hx. by apply Hk, Hsub.
Qed.

Lemma writes_trans W s1 s2 s3 :
  writes W s1 s2 -> writes W s2 s3 -> writes W s1 s3.
Proof.
  intros [E1 Hh1 Hc1 Hf1] [E2 Hh2 Hc2 Hf2]. split.
  - by eapply evolves_trans.
  - intros x Hx. by rewrite Hh2, Hh1.
  - intros k Hk. rewrite Hc2, Hc1; [done|done|].
    intros x Hx. rewrite (shape_value _ _ (ev_shape _ _ E1)). by apply Hk.
  - intros k Hk. rewrite Hf2, Hf1; [done|done|].
    intros x Hx. rewrite (shape_value _ _ (ev_shape _ _ E1)). by apply Hk.
Qed.

Lemma modify_writes s r f : cache_only f -> writes [r] s (modify s r f).
Proof.
  intros Hf. split; [by apply modify_evolves|..|done|done].
  intros x Hx. rewrite heap_modify, decide_False; [done|].
  intros ->. apply Hx. left.
Qed.

Lemma getVisible_writes f s r s' v :
  getVisible f s r = Ret (s', v) -> writes [r] s s'.
Proof.
  intros H. pose proof (getVisible_evolves _ _ _ _ _ H) as E.
  unfold getVisible in H. destruct (inNodeMap s r).
  - inv_bind H. destruct (Config.filter (config s)) as [g|].
    + injection H as <- _. unfold updateFilterNodes in *.
      destruct (g _); [|destruct (truthy _)]; try apply writes_refl;
        (split; [done|done|done|]); intros k Hk;
        assert (value (heap s r) <> k) as Hne by (apply Hk; left); simpl.
      * by rewrite lookup_insert_ne.
      * by rewrite lookup_delete_ne.
    + injection H as <- _. apply writes_refl.
  - injection H as <- _. apply writes_refl.
Qed.

Lemma update_writes f s r s' : update f s r = Ret s' -> writes [r] s s'.
Proof.
  unfold update. intros H. inv_bind H. inv_bind H. injection H as <-.
  destruct a0 as [s1 v]. simpl. unfold updated.
  eapply writes_trans; [apply modify_writes, cache_only_view|].
  eapply writes_trans; [by eapply getVisible_writes|].
  apply modify_writes, cache_only_visible.
Qed.

(** [update] does not touch the checked map at all. *)
Lemma update_checkedMap f s r s' :
  update f s r = Ret s' -> checkedMap s' = checkedMap s.
Proof.
  unfold update. intros H. inv_bind H. inv_bind H. injection H as <-.
  destruct a0 as [s1 v]. simpl. unfold getVisible in Ha0.
  destruct (inNodeMap _ r); [|by injection Ha0 as <- _].
  inv_bind Ha0. destruct (Config.filter _) as [g|].
  - injection Ha0 as <- _. unfold updateFilterNodes.
    destruct (g _); [done|]. by destruct (truthy _).
  - by injection Ha0 as <- _.
Qed.

Lemma updateChecked_writes f s r s' :
  updateChecked f s r = Ret s' -> writes [r] s s'.
Proof.
  intros H. pose proof (updateChecked_evolves _ _ _ _ H) as E.
  pose proof (updateChecked_map _ _ _ _ H) as Hm.
  split; [done|..].
  - intros x Hx. assert (r <> x) as Hne by (intros ->; apply Hx; left).
    revert H. unfold updateChecked.
    set (s1 := modify s r _).
    assert (H1 : heap s1 x = heap s x).
    { unfold s1. by rewrite heap_modify, decide_False. }
    destruct (vmCheckable (heap s1 r)); [|by intros [= <-]].
    intros H. inv_bind H. inv_bind H. injection H as <-. unfold updated.
    rewrite heap_modify, decide_False by done.
    destruct (checked _); simpl; by rewrite fn_lookup_insert_ne.
  - intros k Hk. assert (value (heap s r) <> k) as Hne by (apply Hk; left).
    destruct (isCheckable s r); [|by rewrite Hm].
    destruct Hm as (c & _ & ->). destruct c; [|done].
    by rewrite lookup_insert_ne.
  - intros k _. revert H. unfold updateChecked.
    destruct (vmCheckable _); [|by intros [= <-]].
    intros H. inv_bind H. inv_bind H. injection H as <-. unfold updated.
    simpl. by destruct (checked _).
Qed.

Lemma forEach_writes W (f : TreeStore -> ref -> result TreeStore) l s s' :
  (forall s x s', x ∈ l -> f s x = Ret s' -> writes W s s') ->
  forEach f l s = Ret s' -> writes W s s'.
Proof.
  revert s. induction l as [|x l IH]; intros s Hf H; simpl in H.
  - injection H as <-. apply writes_refl.
  - inv_bind H. eapply writes_trans; [eapply Hf; [left|done]|].
    apply IH; [|done]. intros s1 y s2 Hy. apply Hf. by right.
Qed.

Lemma forEach_update_writes f l s s' :
  forEach (update f) l s = Ret s' -> writes l s s' /\ checkedMap s' = checkedMap s.
Proof.
  intros H. split.
  - revert H. apply forEach_writes. intros s1 x s2 Hx Hu.
    eapply writes_weaken; [|by eapply update_writes].
    intros y Hy. by apply list_elem_of_singleton in Hy as ->.
  - revert s H. induction l as [|x l IH]; intros s H; simpl in H.
    + by injection H as <-.
    + inv_bind H. rewrite (IH _ H). by eapply update_checkedMap.
Qed.

(** [updateParents] writes the ancestors only. *)
Lemma updateParents_writes f s r s' anc :
  updateParents f s r = Ret s' -> getParents f s r = Ret anc ->
  writes anc s s'.
Proof.
  revert s r s' anc. induction f as [|f IH]; intros s r s' anc H Hanc.
  - simpl in H. unfold getParents in Hanc.
    destruct (parent (heap s r)); [discriminate|]. injection H as <-.
    apply writes_refl.
  - simpl in H. unfold getParents in Hanc.
    destruct (parent (heap s r)) as [p|] eqn:Hp;
      [|injection H as <-; apply writes_refl].
    simpl in Hanc. inv_bind Hanc. injection Hanc as <-.
    inv_bind H. inv_bind H.
    pose proof (update_writes _ _ _ _ Ha0) as W1.
    pose proof (updateChecked_writes _ _ _ _ Ha1) as W2.
    assert (Wp : writes [p] s a1) by (by eapply writes_trans).
    eapply writes_trans.
    + eapply writes_weaken; [|exact Wp].
      intros y Hy. apply list_elem_of_singleton in Hy as ->. left.
    + eapply writes_weaken; [|eapply (IH a1 p s' a); [done|]].
      * intros y Hy. by right.
      * unfold getParents.
        rewrite (shape_parent _ _ (ev_shape _ _ (w_evolves _ _ _ Wp))).
        by rewrite (parentsFrom_shape _ _ _ _ (ev_shape _ _ (w_evolves _ _ _ Wp))).
Qed.

Lemma updateParents_total d h s f r :
  ranked d h s -> (forall x y, d x + h y + d r < f) ->
  exists s', updateParents f s r = Ret s'.
Proof.
  revert s r. induction f as [|f IH]; intros s r Hrk Hf.
  { specialize (Hf 0 0). lia. }
  simpl. destruct (parent (heap s r)) as [p|] eqn:Hp; [|eauto].
  pose proof (ranked_parent _ _ _ Hrk _ _ Hp) as Hlt.
  destruct (update_total d h s f p Hrk) as [s1 H1].
  { specialize (Hf p 0). lia. }
  rewrite H1. cbn [bind].
  assert (R1 : ranked d h s1).
  { eapply ranked_shape; [|done]. by eapply ev_shape, update_evolves. }
  destruct (updateChecked_total d h s1 f p R1) as [s2 H2].
  { intros x. specialize (Hf x p). lia. }
  rewrite H2. cbn [bind].
  apply IH.
  - eapply ranked_shape; [|done]. by eapply ev_shape, updateChecked_evolves.
  - intros x y. specialize (Hf x y). lia.
Qed.

Lemma parentsFrom_ext f s s' o :
  (forall x, parent (heap s' x) = parent (heap s x)) ->
  parentsFrom f s' o = parentsFrom f s o.
Proof.
  intros Hp. revert o. induction f as [|f IH]; intros [p|]; simpl; try done.
  by rewrite Hp, IH.
Qed.

Lemma splice_remove_elem i (l : list ref) x : x ∈ splice i 1 [] l -> x ∈ l.
Proof.
  unfold splice. rewrite app_nil_l, elem_of_app.
  intros [H|H]; [by eapply subseteq_take|by eapply subseteq_drop].
Qed.

(** *** [remove], step by step *)

Lemma setSiblings_value s r l x :
  value (heap (setSiblings s r l) x) = value (heap s x).
Proof.
  unfold setSiblings. destruct (parent (heap s r)) as [p|]; [|done].
  destruct (children (heap s p)); try done.
  rewrite heap_modify. case_decide as H; [|done]. subst. by destruct (heap s x).
Qed.

Lemma setSiblings_parent s r l x :
  parent (heap (setSiblings s r l) x) = parent (heap s x).
Proof.
  unfold setSiblings. destruct (parent (heap s r)) as [p|]; [|done].
  destruct (children (heap s p)); try done.
  rewrite heap_modify. case_decide as H; [|done]. subst. by destruct (heap s x).
Qed.

Lemma setSiblings_children s r l x k :
  children (heap (setSiblings s r l) x) = Kids k ->
  children (heap s x) = Kids k \/
  (parent (heap s r) = Some x /\ k = l /\ exists k0, children (heap s x) = Kids k0).
Proof.
  unfold setSiblings. destruct (parent (heap s r)) as [p|]; [|by left].
  destruct (children (heap s p)) as [k0| |] eqn:Hk; try by left.
  rewrite heap_modify. case_decide as H; [|by left]. subst x.
  intros Hch. right. split; [done|]. split; [|eauto].
  destruct (heap s p); simpl in *. congruence.
Qed.

Lemma setSiblings_maps s r l :
  let s1 := setSiblings s r l in
  config s1 = config s /\ nodeMap s1 = nodeMap s /\
  checkedMap s1 = checkedMap s /\ expandedMap s1 = expandedMap s /\
  activedMap s1 = activedMap s /\ filterMap s1 = filterMap s.
Proof.
  unfold setSiblings. destruct (parent (heap s r)) as [p|]; [|done].
  by destruct (children (heap s p)).
Qed.

Lemma setSiblings_ranked d h s r l :
  ranked d h s -> (forall x, x ∈ l -> x ∈ getSiblings s r) ->
  ranked d h (setSiblings s r l).
Proof.
  intros [Hp Hc] Hsub. split.
  - intros x p. rewrite setSiblings_parent. apply Hp.
  - intros x k c Hk Hin.
    apply setSiblings_children in Hk as [Hk|(Hpar & -> & k0 & Hk0)].
    + by eapply Hc.
    + apply (Hc x k0 c Hk0). specialize (Hsub c Hin).
      unfold getSiblings in Hsub. by rewrite Hpar, Hk0 in Hsub.
Qed.

Lemma foldl_clean_heap s l : heap (foldl clean s l) = heap s.
Proof. revert s. induction l as [|x l IH]; intros s; simpl; [done|]. by rewrite IH. Qed.

Lemma foldl_clean_config s l : config (foldl clean s l) = config s.
Proof. revert s. induction l as [|x l IH]; intros s; simpl; [done|]. by rewrite IH. Qed.

Lemma foldl_clean_roots s l : tree_children (foldl clean s l) = tree_children s.
Proof. revert s. induction l as [|x l IH]; intros s; simpl; [done|]. by rewrite IH. Qed.

Lemma foldl_clean_filterMap s l : filterMap (foldl clean s l) = filterMap s.
Proof. revert s. induction l as [|x l IH]; intros s; simpl; [done|]. by rewrite IH. Qed.

Lemma foldl_clean_nodeMap s l :
  nodeMap (foldl clean s l) =
  foldl (fun m x => delete (value (heap s x)) m) (nodeMap s) l.
Proof.
  revert s. induction l as [|x l IH]; intros s; simpl; [done|]. by rewrite IH.
Qed.

Lemma foldl_clean_checkedMap s l :
  checkedMap (foldl clean s l) =
  foldl (fun m x => delete (value (heap s x)) m) (checkedMap s) l.
Proof.
  revert s. induction l as [|x l IH]; intros s; simpl; [done|]. by rewrite IH.
Qed.

Lemma foldl_clean_expandedMap s l :
  expandedMap (foldl clean s l) =
  foldl (fun m x => delete (value (heap s x)) m) (expandedMap s) l.
Proof.
  revert s. induction l as [|x l IH]; intros s; simpl; [done|]. by rewrite IH.
Qed.

Lemma foldl_clean_activedMap s l :
  activedMap (foldl clean s l) =
  foldl (fun m x => delete (value (heap s x)) m) (activedMap s) l.
Proof.
  revert s. induction l as [|x l IH]; intros s; simpl; [done|]. by rewrite IH.
Qed.

Lemma foldl_clean_ranked d h s l : ranked d h s -> ranked d h (foldl clean s l).
Proof.
  intros [Hp Hc]. split; intros x; rewrite foldl_clean_heap; [apply Hp|apply Hc].
Qed.

Lemma lookup_foldl_delete_elem {V} (g : ref -> string) l (m : gmap string V) x :
  x ∈ l -> foldl (fun m x => delete (g x) m) m l !! g x = None.
Proof.
  intros Hx. rewrite foldl_delete_lookup, decide_True; [done|].
  apply list_elem_of_fmap. eauto.
Qed.

(** The states [remove] goes through, for a run that returns. *)
Lemma remove_inv f s r s' :
  remove f s r = Ret s' ->
  exists nodes s3,
    let siblings' := splice (getIndex s r) 1 [] (getSiblings s r) in
    let s2 := foldl clean (setSiblings s r siblings') nodes in
    walk f s r = Ret nodes /\
    forEach (update f) siblings' s2 = Ret s3 /\
    updateParents f s3 r = Ret s'.
Proof.
  unfold remove. intros H. inv_bind H. inv_bind H. inv_bind H.
  injection H as <-. by exists a, a0.
Qed.

Lemma remove_total d h s f r :
  ranked d h s -> (forall x y z, d x + d y + h z < f) ->
  exists s', remove f s r = Ret s'.
Proof.
  intros Hrk Hb. unfold remove.
  destruct (walk_total d h s f r Hrk) as [nodes ->].
  { specialize (Hb 0 0 r). lia. }
  cbn [bind].
  set (siblings' := splice (getIndex s r) 1 [] (getSiblings s r)).
  set (s2 := foldl clean (setSiblings s r siblings') nodes).
  assert (R2 : ranked d h s2).
  { apply foldl_clean_ranked, setSiblings_ranked; [done|].
    intros x. apply splice_remove_elem. }
  destruct (forEach_inv (ranked d h) (update f) siblings' s2 R2) as (s3 & -> & R3).
  { intros s0 x _ R0. destruct (update_total d h s0 f x R0) as [s1 H1].
    - specialize (Hb x 0 0). lia.
    - exists s1. split; [done|].
      eapply ranked_shape; [|done]. by eapply ev_shape, update_evolves. }
  cbn [bind].
  destruct (updateParents_total d h s3 f r R3) as [s4 ->]; [|simpl; eauto].
  intros x y. specialize (Hb x r y). lia.
Qed.

(** *** [indexOf] and [splice] *)

Lemma indexOf_range x l : (-1 <= indexOf x l < Z.of_nat (length l))%Z.
Proof.
  induction l as [|y l IH]; simpl; [lia|].
  case_decide; [lia|]. destruct (indexOf x l <? 0)%Z eqn:E; lia.
Qed.

Lemma indexOf_absent x l : x ∉ l <-> indexOf x l = (-1)%Z.
Proof.
  induction l as [|y l IH]; simpl.
  - split; [done|]. intros _ H. inversion H.
  - rewrite not_elem_of_cons. case_decide as Hy.
    + subst. split; [by intros [? _]|lia].
    + pose proof (indexOf_range x l) as Hrg.
      destruct (indexOf x l <? 0)%Z eqn:E.
      * apply Z.ltb_lt in E. split; [done|]. intros _. split; [done|].
        apply IH. lia.
      * apply Z.ltb_ge in E. split; [|lia]. intros [_ Hn]. apply IH in Hn. lia.
Qed.

Lemma indexOf_first x l :
  x ∈ l ->
  exists i, indexOf x l = Z.of_nat i /\ l !! i = Some x /\
            forall j, j < i -> l !! j <> Some x.
Proof.
  induction l as [|y l IH]; intros Hx; [inversion Hx|]. simpl.
  case_decide as Hy.
  - subst. exists 0. split; [done|]. split; [done|]. lia.
  - apply elem_of_cons in Hx as [->|Hx]; [done|].
    destruct (IH Hx) as (i & Hi & Hl & Hmin). rewrite Hi.
    destruct (Z.of_nat i <? 0)%Z eqn:E; [apply Z.ltb_lt in E; lia|].
    exists (S i). split; [lia|]. split; [done|].
    intros [|j] Hj; simpl; [congruence|]. apply Hmin. lia.
Qed.

Lemma splice_remove_at i (l : list ref) :
  i < length l -> splice (Z.of_nat i) 1 [] l = delete i l.
Proof.
  intros Hi. unfold splice.
  destruct (Z.of_nat i <? 0)%Z eqn:E; [apply Z.ltb_lt in E; lia|].
  rewrite Z.min_l by lia. rewrite Nat2Z.id. simpl.
  rewrite delete_take_drop. by rewrite Nat.add_1_r.
Qed.

Lemma splice_remove_last (l : list ref) : splice (-1) 1 [] l = removelast l.
Proof.
  unfold splice. change ((-1 <? 0)%Z) with true. cbn [app].
  destruct l as [|x l] using rev_ind; [done|].
  rewrite removelast_last, length_app. simpl.
  replace (Z.to_nat (Z.max (Z.of_nat (length l + 1) + -1) 0)) with (length l) by lia.
  rewrite take_app_length.
  rewrite drop_ge by (rewrite length_app; simpl; lia). by rewrite app_nil_r.
Qed.

Lemma setSiblings_frame s r l x :
  (forall p, parent (heap s r) = Some p -> x <> p) ->
  heap (setSiblings s r l) x = heap s x.
Proof.
  intros Hx. unfold setSiblings. destruct (parent (heap s r)) as [p|]; [|done].
  destruct (children (heap s p)); try done.
  rewrite heap_modify, decide_False; [done|]. intros ->. by apply (Hx x).
Qed.

Lemma getSiblings_setSiblings s r l :
  l = splice (getIndex s r) 1 [] (getSiblings s r) ->
  getSiblings (setSiblings s r l) r = l.
Proof.
  intros Hl. unfold getSiblings at 1. rewrite setSiblings_parent.
  unfold setSiblings. unfold getIndex, getSiblings in Hl.
  destruct (parent (heap s r)) as [p|]; [|done].
  destruct (children (heap s p)) as [k| |] eqn:Hk; rewrite ?Hk; try done.
  rewrite heap_modify, decide_True by done. by destruct (heap s p).
Qed.

Lemma getSiblings_shape s s' r :
  same_shape s s' -> getSiblings s' r = getSiblings s r.
Proof.
  intros Hs. unfold getSiblings.
  rewrite (shape_parent _ _ Hs), (shape_roots _ _ Hs).
  destruct (parent (heap s r)); [|done]. by rewrite (shape_children _ _ Hs).
Qed.

Lemma getParents_head f s r p anc :
  parent (heap s r) = Some p -> getParents f s r = Ret anc -> p ∈ anc.
Proof.
  unfold getParents. intros ->. destruct f; simpl; [done|].
  intros H. inv_bind H. injection H as <-. left.
Qed.


Lemma getSiblings_clean s l r :
  getSiblings (foldl clean s l) r = getSiblings s r.
Proof. unfold getSiblings. by rewrite foldl_clean_heap, foldl_clean_roots. Qed.

(** The sibling list after a [remove] that returned. *)
Lemma remove_getSiblings f s r s' :
  remove f s r = Ret s' ->
  getSiblings s' r = splice (getIndex s r) 1 [] (getSiblings s r).
Proof.
  intros H. destruct (remove_inv _ _ _ _ H) as (nodes & s3 & _ & H3 & H4).
  apply forEach_update_writes in H3 as [W3 _].
  assert (E4 : evolves s3 s').
  { clear -H4. revert s3 r H4. induction f as [|f IH]; intros s r H; simpl in H.
    - destruct (parent (heap s r)); [discriminate|]. injection H as <-.
      apply evolves_refl.
    - destruct (parent (heap s r)); [|injection H as <-; apply evolves_refl].
      inv_bind H. inv_bind H.
      eapply evolves_trans; [by eapply update_evolves|].
      eapply evolves_trans; [by eapply updateChecked_evolves|]. by eapply IH. }
  rewrite (getSiblings_shape _ _ _ (ev_shape _ _ E4)).
  rewrite (getSiblings_shape _ _ _ (ev_shape _ _ (w_evolves _ _ _ W3))).
  rewrite getSiblings_clean. by apply getSiblings_setSiblings.
Qed.


(** *** Committed switches *)

Lemma getRelatedNodes_total d h s f v :
  ranked d h s -> (forall x y, d x + h y < f) ->
  exists l, getRelatedNodes f s [v] = Ret l.
Proof.
  intros Hrk Hb. unfold getRelatedNodes. cbn [forEach].
  destruct (nodeMap s !! v) as [n|]; [|simpl; eauto].
  destruct (walk_total d h s f n Hrk) as [w ->].
  { specialize (Hb 0 n). lia. }
  cbn [bind].
  destruct (getParents_total d h s Hrk f n) as (ps & -> & _).
  { specialize (Hb n 0). lia. }
  simpl. eauto.
Qed.

(** A committed [setChecked] returns; its live map is the map it hands
    back, and it holds every binding of the written map. *)
Lemma setChecked_commit fuel s r v m1 :
  forest fuel s ->
  setChecked_write fuel s r v (checkedMap s) = Ret m1 ->
  exists s',
    setChecked fuel s r v true = Ret (s', checkedMap s') /\
    evolves (set_checkedMap s m1) s'.
Proof.
  intros (d & h & Hrk & Hb3) Hw.
  assert (Hb : forall x y, d x + h y < fuel)
    by (intros x y; specialize (Hb3 x 0 y); lia).
  unfold setChecked. rewrite Hw. cbn [bind].
  set (s1 := set_checkedMap s m1).
  assert (R1 : ranked d h s1) by (eapply ranked_shape; [|done]; by split).
  destruct (Config.checkStrictly (config s1)).
  - destruct (updateChecked_total d h s1 fuel r R1) as [s' Hs'].
    { intros x. apply Hb. }
    rewrite Hs'. cbn [bind]. exists s'. split; [done|].
    by eapply updateChecked_evolves.
  - destruct (getRelatedNodes_total d h s1 fuel (value (heap s1 r)) R1 Hb)
      as [l ->].
    cbn [bind].
    destruct (propagate_total d h fuel l s1 R1 Hb) as (s' & -> & E).
    cbn [bind]. by exists s'.
Qed.


(** *** What [walk] lists *)






(** *** Unchecking for good *)








(** In strict mode the checked state is the binding of the map. *)
Lemma isChecked_strict f s r map b :
  Config.checkStrictly (config s) = true ->
  isChecked f s r map = Ret b ->
  b = inNodeMap s r && truthy (default (checkedMap s) map !! value (heap s r)).
Proof.
  intros Hstrict H. destruct f; [discriminate|]. simpl in H.
  rewrite Hstrict in H. destruct (inNodeMap s r); [|simpl; congruence].
  destruct (truthy _); [simpl; congruence|].
  destruct (asArray _) as [l|]; [destruct (0 <? length l)|]; simpl in H;
    simpl; congruence.
Qed.

(** A committed [setChecked] in strict mode leaves the written map live. *)
Lemma setChecked_commit_strict fuel s r v m1 s' m' :
  Config.checkStrictly (config s) = true ->
  setChecked_write fuel s r v (checkedMap s) = Ret m1 ->
  setChecked fuel s r v true = Ret (s', m') ->
  m' = m1.
Proof.
  intros Hstrict Hw H. unfold setChecked in H. rewrite Hw in H.
  cbn [bind] in H. set (s1 := set_checkedMap s m1) in *.
  change (config s1) with (config s) in H. rewrite Hstrict in H.
  inv_bind H. injection H as _ <-.
  apply updateChecked_map in Ha. destruct (isCheckable s1 r); [|done].
  destruct Ha as (c & Hc & ->). destruct c; [|done].
  apply isChecked_strict in Hc; [|done].
  symmetry in Hc. apply andb_true_iff in Hc as [_ Hc].
  apply truthy_true in Hc. by apply insert_id.
Qed.

Lemma emptied_forest : forest 5 emptied.
Proof.
  exists (fun r => match r with 0 => 0 | _ => 1 end),
         (fun r => match r with 0 => 1 | _ => 0 end).
  split; [split|].
  - intros [|[|[|r]]] p; simpl; intros [= <-]; lia.
  - intros [|[|[|r]]] l c; simpl; intros [= <-] Hc.
    + set_unfold in Hc. destruct Hc as [->|[->|[]]]; lia.
    + inversion Hc.
  - intros [|x] [|y] [|z]; lia.
Qed.


(** * The claims *)

(** C1 (amended).  For a node present in the node index, [isChecked]
    returns, and it returns true exactly when the node's identity is bound
    in the checked map it is given (the live map by default); or, outside
    strict mode, the node has a non-empty child array and every child is
    checked against the same map; or, outside strict mode, the node has no
    child array or an empty one and some ancestor's identity is bound in the
    map.  In strict mode only the first case is left. *)
Theorem isChecked_derived fuel s r map :
  forest fuel s ->
  inNodeMap s r = true ->
  exists b,
    isChecked fuel s r map = Ret b /\
    let m := default (checkedMap s) map in
    let strict := Config.checkStrictly (config s) in
    (b = true <->
       m !! value (heap s r) = Some true
       \/ (strict = false /\
           exists l, children (heap s r) = Kids l /\ l <> [] /\
                     forall c, c ∈ l -> isChecked fuel s c (Some m) = Ret true)
       \/ (strict = false /\
           (forall l, children (heap s r) = Kids l -> l = []) /\
           exists ps p, getParents fuel s r = Ret ps /\ p ∈ ps /\
                        m !! value (heap s p) = Some true)).
Proof.
  intros Hf Hin.
  destruct (isChecked_forest fuel s r map Hf) as [b Hb].
  exists b. split; [done|]. cbv zeta.
  destruct Hf as (d & h & Hrk & Hb3).
  assert (Hbd : forall x y, d x + h y < fuel)
    by (intros x y; specialize (Hb3 x 0 y); lia).
  destruct fuel as [|f]; [discriminate|].
  destruct (getParents_total d h s Hrk f r) as (ps & Hps & _).
  { specialize (Hbd r 0). lia. }
  assert (HpsS : getParents (S f) s r = Ret ps).
  { apply (getParents_mono f); [done|lia]. }
  simpl in Hb. rewrite Hin in Hb.
  set (m := default (checkedMap s) map) in *.
  destruct (truthy (m !! value (heap s r))) eqn:Hm.
  { injection Hb as <-. apply truthy_true in Hm. tauto. }
  assert (Hnm : m !! value (heap s r) <> Some true).
  { intros H. apply truthy_true in H. congruence. }
  assert (Hanc : forall b,
    (parents <- getParents f s r ;;
     Ret (existsb (fun p => truthy (m !! value (heap s p))) parents)) = Ret b ->
    (b = true <-> exists ps p, getParents (S f) s r = Ret ps /\ p ∈ ps /\
                               m !! value (heap s p) = Some true)).
  { intros b' H. rewrite Hps in H. simpl in H. injection H as <-.
    rewrite existsb_elem. split.
    - intros (p & Hp & Ht). exists ps, p. by rewrite <- truthy_true.
    - intros (ps' & p & Hps' & Hp & Ht). rewrite HpsS in Hps'.
      injection Hps' as <-. exists p. by rewrite truthy_true. }
  destruct (Config.checkStrictly (config s)) eqn:Hstrict.
  { assert (b = false) as ->.
    { destruct (asArray _) as [l|]; [destruct (0 <? length l)|]; simpl in Hb; congruence. }
    split; [discriminate|]. intros [H|[[H _]|[H _]]]; congruence. }
  destruct (children (heap s r)) as [l| |] eqn:Hch; simpl in Hb.
  - destruct l as [|c l].
    + simpl in Hb. apply Hanc in Hb. rewrite Hb. split.
      * intros H. right. right. split; [done|]. split; [|done].
        by intros l [= <-].
      * intros [H|[(_ & l & [= <-] & Hne & _)|(_ & _ & H)]]; done.
    + change (0 <? length (c :: l)) with true in Hb.
      cbn [andb negb] in Hb.
      assert (b = true <->
              forall x, x ∈ c :: l -> isChecked (S f) s x (Some m) = Ret true).
      { transitivity (every (fun c => isChecked f s c (Some m)) (c :: l) = Ret true).
        - rewrite Hb. split; congruence.
        - rewrite every_true. split; intros H x Hx; specialize (H x Hx);
            by apply (isChecked_child d h s f r (c :: l) x). }
      rewrite H. split.
      * intros Hall. right. left. split; [done|]. by exists (c :: l).
      * intros [Hx|[(_ & l' & [= <-] & _ & Hall)|(_ & Hk & _)]]; [done|done|].
        specialize (Hk _ eq_refl). discriminate.
  - apply Hanc in Hb. rewrite Hb. split.
    + intros H. right. right. split; [done|]. split; [|done]. by intros l [=].
    + intros [H|[(_ & l & [=] & _)|(_ & _ & H)]]; done.
  - apply Hanc in Hb. rewrite Hb. split.
    + intros H. right. right. split; [done|]. split; [|done]. by intros l [=].
    + intros [H|[(_ & l & [=] & _)|(_ & _ & H)]]; done.
Qed.

(** At [pruned], node 1 is attached: the theorem applies to it. *)
Lemma isChecked_derived_witness :
  forest 5 pruned /\ inNodeMap pruned 1 = true /\
  exists b, isChecked 5 pruned 1 (Some {[ "P" := true ]}) = Ret b.
Proof.
  split; [exact pruned_forest|]. split; [reflexivity|].
  destruct (isChecked_derived 5 pruned 1 (Some {[ "P" := true ]})
              pruned_forest eq_refl) as (b & Hb & _).
  exists b. exact Hb.
Defined.

(** C1 as stated fails on a node whose child array is empty: with only the
    parent bound in the map the code answers true through the ancestor
    branch, while none of the three stated cases holds. *)
Lemma isChecked_as_specified_counterexample :
  ~ isChecked_as_specified 5 pruned 1 (Some {[ "P" := true ]}).
Proof.
  intros H. destruct (H eq_refl) as (b & Hb & Hiff).
  vm_compute in Hb. injection Hb as <-.
  destruct (proj1 Hiff eq_refl) as [H1|[(_ & l & Hl & Hne & _)|(_ & Hn & _)]].
  - vm_compute in H1. discriminate.
  - simpl in Hl. injection Hl as <-. by apply Hne.
  - simpl in Hn. discriminate.
Qed.




(** C3, at the failing input.  In [matched] the filter map holds A.
    [remove] of A returns; A is then gone from the node index and from the
    checked, expanded and activated maps, but the filter map still holds
    it: [clean] has no line for [filterMap]. *)
Theorem remove_keeps_filter_entry :
  exists s',
    remove 5 matched 1 = Ret s' /\
    nodeMap s' !! "A" = None /\
    checkedMap s' !! "A" = None /\
    expandedMap s' !! "A" = None /\
    activedMap s' !! "A" = None /\
    filterMap s' !! "A" = Some true.
Proof.
  destruct (remove 5 matched 1) as [s'| |] eqn:H;
    vm_compute in H; try discriminate.
  exists s'. split; [done|]. injection H as <-. repeat split; reflexivity.
Qed.


(** C4, at the failing input.  [appendTo] of the parent P of [family] under
    P itself passes both guards (the ancestors of the target do not include
    the target), and with any recursion budget the call does not return. *)
Theorem appendTo_self_never_returns :
  forall fuel, appendTo fuel family 0 (Some 0) None = Timeout.
Proof.
  intros fuel. unfold appendTo, getParents.
  change (parent (heap family 0)) with (@None ref).
  rewrite parentsFrom_None. cbn [bind existsb].
  change (asArray (children (heap family 0))) with (Some [1; 2]).
  change (at_index [1; 2] (default 0%Z None)) with (Some 1).
  change (bool_decide (value (heap family 1) = value (heap family 0)))
    with false.
  apply appendTo_move_self.
Qed.


(** C5 (amended).  [setExpanded(true)] returns.  The candidates are the
    node and, when [expandParent] is configured, its ancestors.  Provided
    that among the siblings of a candidate only the candidate itself carries
    a candidate's identity (identities are unique), the returned map, which
    is the live expanded map when [directly] is set, binds every candidate,
    and for every candidate whose governing flag is on (its parent's
    [isExpandMutex], or the configuration's [expandMutex] for a root-level
    node) it binds none of the candidate's siblings. *)
Theorem setExpanded_mutex fuel s r directly :
  forest fuel s ->
  exists ps s' m,
    getParents fuel s r = Ret ps /\
    setExpanded fuel s r true directly = Ret (s', m) /\
    (if directly then expandedMap s' = m else s' = s) /\
    let candidates :=
      r :: (if Config.expandParent (config s) then ps else []) in
    ((forall c c' x, c ∈ candidates -> c' ∈ candidates ->
                     x ∈ getSiblings s c' ->
                     value (heap s x) = value (heap s c) -> x = c') ->
     forall c, c ∈ candidates ->
       m !! value (heap s c) = Some true /\
       (governingMutex s c = true ->
        forall x, x ∈ getSiblings s c -> x <> c ->
                  m !! value (heap s x) = None)).
Proof.
  intros Hf. destruct (getParents_forest fuel s r Hf) as [ps Hps].
  set (candidates := r :: (if Config.expandParent (config s) then ps else [])).
  set (map' := foldl (expandOne s) (expandedMap s) candidates).
  assert (Hstep :
    (shouldExpandNodes <-
       (if Config.expandParent (config s)
        then ps <- getParents fuel s r ;; Ret (r :: ps)
        else Ret [r]) ;;
     Ret (foldl (expandOne s) (expandedMap s) shouldExpandNodes)) = Ret map').
  { unfold map', candidates. rewrite Hps.
    by destruct (Config.expandParent (config s)). }
  assert (exists s', setExpanded fuel s r true directly = Ret (s', map') /\
                     if directly then expandedMap s' = map' else s' = s)
    as (s' & Hs' & Hlive).
  { unfold setExpanded. rewrite Hstep. simpl. destruct directly; [|eauto].
    destruct Hf as (d & h & Hrk & Hb3).
    assert (Hd : forall x, d x <= fuel) by (intros x; specialize (Hb3 x 0 0); lia).
    assert (Hdh : forall y x, d x + h y < fuel)
      by (intros y x; specialize (Hb3 x 0 y); lia).
    set (s0 := set_expandedMap s map').
    assert (R0 : ranked d h s0) by (eapply ranked_shape; [|done]; by split).
    destruct (afterExpanded_total d h s0 fuel r R0 (Hd r)) as [s1 H1].
    rewrite H1. simpl. pose proof (afterExpanded_evolves _ _ _ _ H1) as E1.
    assert (R1 : ranked d h s1) by (eapply ranked_shape; [apply E1|done]).
    destruct (update_total d h s1 fuel r R1 (Hd r)) as [s2 H2].
    rewrite H2. simpl. pose proof (update_evolves _ _ _ _ H2) as E2.
    assert (R2 : ranked d h s2) by (eapply ranked_shape; [apply E2|done]).
    destruct (updateChildren_total d h s2 fuel r R2 (Hdh r)) as [s3 H3].
    rewrite H3. simpl. pose proof (updateChildren_evolves _ _ _ _ H3) as E3.
    assert (E : expandedMap s3 = map').
    { rewrite (ev_expanded _ _ E3), (ev_expanded _ _ E2), (ev_expanded _ _ E1).
      done. }
    exists s3. rewrite E. done. }
  exists ps, s', map'. split; [done|]. split; [done|]. split; [done|].
  intros cands Huniq c Hc. by apply expand_all.
Qed.

(** Three siblings under a parent with the mutex switch, A expanded:
    expanding B for good leaves B bound and A and C unbound. *)
Lemma setExpanded_mutex_witness :
  forest 5 accordion /\
  exists s', setExpanded 5 accordion 2 true true = Ret (s', expandedMap s') /\
             expandedMap s' !! "B" = Some true /\
             expandedMap s' !! "A" = None /\
             expandedMap s' !! "C" = None.
Proof.
  split; [exact accordion_forest|].
  destruct (setExpanded_mutex 5 accordion 2 true accordion_forest)
    as (ps & s' & m & _ & Hset & <- & H).
  exists s'. split; [exact Hset|].
  destruct (H ltac:(intros c c' x Hc Hc' Hx Hv;
                    apply list_elem_of_singleton in Hc as ->;
                    apply list_elem_of_singleton in Hc' as ->;
                    simpl in Hx; set_unfold in Hx;
                    destruct Hx as [->|[->|[->|[]]]]; simpl in Hv;
                    congruence) 2 ltac:(left)) as [HB Hsib].
  split; [exact HB|]. split.
  - apply (Hsib eq_refl 1); [simpl; set_solver|lia].
  - apply (Hsib eq_refl 3); [simpl; set_solver|lia].
Defined.

(** C5 as stated fails for a root-level node that carries the mutex switch
    itself while the configuration does not: its siblings stay bound. *)
Lemma setExpanded_as_specified_counterexample :
  ~ setExpanded_as_specified 5 rootPair 1 false.
Proof.
  intros (ps & s' & m & _ & Hset & H).
  vm_compute in Hset. injection Hset as _ <-.
  destruct (H ltac:(intros c c' x Hc Hc' Hx Hv;
                    apply list_elem_of_singleton in Hc as ->;
                    apply list_elem_of_singleton in Hc' as ->;
                    simpl in Hx; set_unfold in Hx;
                    destruct Hx as [->|[->|[]]]; simpl in Hv;
                    congruence) 1 ltac:(left)) as [_ Hsib].
  specialize (Hsib eq_refl 0 ltac:(simpl; set_solver) ltac:(lia)).
  vm_compute in Hsib. discriminate.
Qed.

(** C6.  [getVisible] returns false for a node whose identity is not in the
    node index.  For an indexed node it returns true exactly when every
    ancestor is expanded (which holds vacuously without ancestors) or a
    filter is configured and accepts the node's view model. *)
Theorem getVisible_spec fuel s r :
  forest fuel s ->
  exists s' v ps,
    getVisible fuel s r = Ret (s', v) /\
    getParents fuel s r = Ret ps /\
    (inNodeMap s r = false -> v = false) /\
    (inNodeMap s r = true ->
     (v = true <->
        (forall p, p ∈ ps -> isExpanded s p None = true)
        \/ exists filter, Config.filter (config s) = Some filter /\
                          filter (getTreeNodeModel s r) = true)).
Proof.
  intros Hf. destruct (getParents_forest fuel s r Hf) as [ps Hps].
  unfold getVisible. rewrite Hps. simpl.
  assert (Hexp : (if 0 <? length ps
                  then forallb (fun p => isExpanded s p None) ps
                  else true) = true <->
                 forall p, p ∈ ps -> isExpanded s p None = true).
  { destruct ps as [|p ps]; simpl (0 <? _).
    - split; [intros _ p Hp; inversion Hp|done].
    - apply forallb_elem. }
  destruct (inNodeMap s r).
  - destruct (Config.filter (config s)) as [filter|] eqn:Hfilter.
    + eexists _, _, ps. split; [reflexivity|]. split; [done|].
      split; [discriminate|]. intros _.
      rewrite orb_true_iff, Hexp. split.
      * intros [H|H]; [by left|]. right. by exists filter.
      * intros [H|(g & [= <-] & H)]; [by left|by right].
    + eexists _, _, ps. split; [reflexivity|]. split; [done|].
      split; [discriminate|]. intros _.
      rewrite orb_false_r, Hexp. split; [by left|].
      intros [H|(g & [=] & _)]; done.
  - exists s, false, ps. split; [done|]. split; [done|].
    split; [done|discriminate].
Qed.

(** In [filtered] the parent is collapsed and the filter accepts A only:
    A is visible, its sibling B is not. *)
Lemma getVisible_spec_witness :
  forest 5 filtered /\
  (exists s', getVisible 5 filtered 1 = Ret (s', true)) /\
  (exists s', getVisible 5 filtered 2 = Ret (s', false)).
Proof.
  split; [apply family_forest|]. split.
  - destruct (getVisible_spec 5 filtered 1 (family_forest _ _ _ _ _ _ _))
      as (s' & v & ps & Hv & _ & _ & Hiff).
    exists s'. rewrite Hv. do 2 f_equal. apply (Hiff eq_refl). right.
    eexists. split; reflexivity.
  - destruct (getVisible_spec 5 filtered 2 (family_forest _ _ _ _ _ _ _))
      as (s' & v & ps & Hv & Hps & _ & Hiff).
    exists s'. rewrite Hv. do 2 f_equal.
    destruct v; [|done]. exfalso.
    destruct (proj1 (Hiff eq_refl) eq_refl) as [H|(g & [= <-] & H)].
    + vm_compute in Hps. injection Hps as <-.
      specialize (H 0 ltac:(left)). vm_compute in H. discriminate.
    + vm_compute in H. discriminate.
Defined.

(** C7 (amended).  [isIndeterminate] returns; it returns false for a node
    without a child array, and for a node with one it returns true exactly
    when some child is indeterminate or two children differ in their
    derived checked state.  A parent of exactly two children of which one is
    checked and the other is not is indeterminate, and it is unchecked
    provided its own identity is not bound in the checked map. *)
Theorem isIndeterminate_spec fuel s r :
  forest fuel s ->
  exists b,
    isIndeterminate fuel s r = Ret b /\
    (asArray (children (heap s r)) = None -> b = false) /\
    (forall l, children (heap s r) = Kids l ->
       (b = true <->
          (exists c, c ∈ l /\ isIndeterminate fuel s c = Ret true)
          \/ exists c1 c2 k, c1 ∈ l /\ c2 ∈ l /\
                             isChecked fuel s c1 None = Ret k /\
                             isChecked fuel s c2 None = Ret (negb k))) /\
    (forall c1 c2 k,
       children (heap s r) = Kids [c1; c2] ->
       isChecked fuel s c1 None = Ret k ->
       isChecked fuel s c2 None = Ret (negb k) ->
       b = true /\
       (checkedMap s !! value (heap s r) <> Some true ->
        isChecked fuel s r None = Ret false)).
Proof.
  intros Hf. destruct (isIndeterminate_forest fuel s r Hf) as [b Hb].
  exists b. split; [done|].
  destruct Hf as (d & h & Hrk & Hb3).
  assert (Hbd : forall x y, d x + h y < fuel)
    by (intros x y; specialize (Hb3 x 0 y); lia).
  destruct fuel as [|f]; [discriminate|].
  assert (Hkids : forall l, children (heap s r) = Kids l ->
    (b = true <->
       (exists c, c ∈ l /\ isIndeterminate (S f) s c = Ret true)
       \/ exists c1 c2 k, c1 ∈ l /\ c2 ∈ l /\
                          isChecked (S f) s c1 None = Ret k /\
                          isChecked (S f) s c2 None = Ret (negb k))).
  { intros l Hl. simpl in Hb. rewrite Hl in Hb. simpl in Hb.
    apply someDisagree_None in Hb.
    - rewrite Hb. split.
      + intros [(c & Hc & Hi)|(c1 & c2 & k & H1 & H2 & Hk1 & Hk2)].
        * left. exists c. split; [done|].
          by apply (isIndeterminate_child d h s f r l c).
        * right. exists c1, c2, k. split; [done|]. split; [done|].
          split; by eapply (isChecked_child d h s f r l).
      + intros [(c & Hc & Hi)|(c1 & c2 & k & H1 & H2 & Hk1 & Hk2)].
        * left. exists c. split; [done|].
          by apply (isIndeterminate_child d h s f r l c).
        * right. exists c1, c2, k. split; [done|]. split; [done|].
          split; by eapply (isChecked_child d h s f r l).
    - intros c Hc. apply (isChecked_total d h); [done|].
      intros x. pose proof (ranked_children _ _ _ Hrk _ _ _ Hl Hc).
      specialize (Hbd x r). lia. }
  split; [|split; [exact Hkids|]].
  - intros Hn. simpl in Hb. rewrite Hn in Hb. congruence.
  - intros c1 c2 k Hl Hk1 Hk2. split.
    + apply (Hkids _ Hl). right. exists c1, c2, k.
      split; [left|]. split; [right; left|]. done.
    + intros Hnm.
      destruct (isChecked_total d h s (S f) r None Hrk) as [b' Hb'].
      { intros x. apply Hbd. }
      rewrite Hb'. f_equal. simpl in Hb'.
      destruct (inNodeMap s r); [|congruence].
      destruct (truthy _) eqn:Ht; [by apply truthy_true in Ht|].
      rewrite Hl in Hb'. simpl in Hb'.
      destruct (negb (Config.checkStrictly (config s))); [|congruence].
      simpl in Hb'.
      assert (H1 : isChecked f s c1 (Some (checkedMap s)) = Ret k).
      { rewrite <- isChecked_live.
        eapply (isChecked_child d h s f r); [done|done|done|left|done]. }
      assert (H2 : isChecked f s c2 (Some (checkedMap s)) = Ret (negb k)).
      { rewrite <- isChecked_live.
        eapply (isChecked_child d h s f r);
          [done|done|done|right; left|done]. }
      rewrite H1 in Hb'. simpl in Hb'. destruct k; [|congruence].
      rewrite H2 in Hb'. simpl in Hb'. congruence.
Qed.

(** In [family] the child A is checked and B is not. *)
Lemma isIndeterminate_spec_witness :
  forest 5 family /\ isIndeterminate 5 family 0 = Ret true.
Proof.
  split; [apply family_forest|].
  destruct (isIndeterminate_spec 5 family 0 (family_forest _ _ _ _ _ _ _))
    as (b & Hb & _ & _ & H2).
  destruct (H2 1 2 true eq_refl eq_refl eq_refl) as [-> _]. exact Hb.
Defined.

(** C7 as stated fails in strict mode: a parent bound in the checked map
    with one checked and one unchecked child is indeterminate and checked. *)
Lemma isIndeterminate_as_specified_counterexample :
  ~ isIndeterminate_as_specified 5 strictFamily 0.
Proof.
  intros (b & _ & _ & _ & H).
  destruct (H 1 2 true eq_refl eq_refl eq_refl) as [_ Hc].
  vm_compute in Hc. discriminate.
Qed.

(** C8.  With [directly] off, each of the three switches returns the store
    it was given, so the live checked, expanded and activated maps stay as
    they were, next to the map it computed on the copy.  That map is the
    hypothetical result: for [setExpanded] and [setActived], and for
    [setChecked] in strict mode, it is the map a committed call leaves
    live; for [setChecked] it is the written map, every binding of which a
    committed call keeps. *)
Theorem preview_keeps_store fuel s r v :
  forest fuel s ->
  (exists m s',
     setChecked fuel s r v false = Ret (s, m) /\
     setChecked_write fuel s r v (checkedMap s) = Ret m /\
     setChecked fuel s r v true = Ret (s', checkedMap s') /\
     grows m (checkedMap s') /\
     (Config.checkStrictly (config s) = true -> checkedMap s' = m)) /\
  (exists ps m s',
     getParents fuel s r = Ret ps /\
     setExpanded fuel s r v false = Ret (s, m) /\
     m = (if v
          then foldl (expandOne s) (expandedMap s)
                 (r :: if Config.expandParent (config s) then ps else [])
          else delete (value (heap s r)) (expandedMap s)) /\
     setExpanded fuel s r v true = Ret (s', m) /\
     expandedMap s' = m) /\
  (exists m s',
     setActived fuel s r v false = Ret (s, m) /\
     m = (if isActivable s r then
            if v then
              <[value (heap s r) := true]>
                (if Config.activeMultiple (config s) then activedMap s else ∅)
            else delete (value (heap s r)) (activedMap s)
          else activedMap s) /\
     setActived fuel s r v true = Ret (s', m) /\
     activedMap s' = m).
Proof.
  intros Hf. split; [|split].
  - destruct (setChecked_write_forest fuel s r v (checkedMap s) Hf) as [m Hm].
    destruct (setChecked_commit fuel s r v m Hf Hm) as (s' & Hs' & E).
    exists m, s'. split; [unfold setChecked; by rewrite Hm|].
    split; [done|]. split; [done|]. split.
    + intros k. apply (ev_checked _ _ E).
    + intros Hstrict. by eapply setChecked_commit_strict.
  - destruct (getParents_forest fuel s r Hf) as [ps Hps].
    destruct Hf as (d & h & Hrk & Hb3).
    assert (Hd : forall x, d x <= fuel)
      by (intros x; specialize (Hb3 x 0 0); lia).
    assert (Hdh : forall y x, d x + h y < fuel)
      by (intros y x; specialize (Hb3 x 0 y); lia).
    set (m := if v
              then foldl (expandOne s) (expandedMap s)
                     (r :: if Config.expandParent (config s) then ps else [])
              else delete (value (heap s r)) (expandedMap s)).
    assert (Hstep :
      (if v then
         shouldExpandNodes <-
           (if Config.expandParent (config s)
            then ps <- getParents fuel s r ;; Ret (r :: ps)
            else Ret [r]) ;;
         Ret (foldl (expandOne s) (expandedMap s) shouldExpandNodes)
       else Ret (delete (value (heap s r)) (expandedMap s))) = Ret m).
    { unfold m. destruct v; [|done]. rewrite Hps.
      by destruct (Config.expandParent (config s)). }
    set (s0 := set_expandedMap s m).
    assert (R0 : ranked d h s0) by (eapply ranked_shape; [|done]; by split).
    destruct (afterExpanded_total d h s0 fuel r R0 (Hd r)) as [s1 H1].
    pose proof (afterExpanded_evolves _ _ _ _ H1) as E1.
    assert (R1 : ranked d h s1) by (eapply ranked_shape; [apply E1|done]).
    destruct (update_total d h s1 fuel r R1 (Hd r)) as [s2 H2].
    pose proof (update_evolves _ _ _ _ H2) as E2.
    assert (R2 : ranked d h s2) by (eapply ranked_shape; [apply E2|done]).
    destruct (updateChildren_total d h s2 fuel r R2 (Hdh r)) as [s3 H3].
    pose proof (updateChildren_evolves _ _ _ _ H3) as E3.
    assert (E : expandedMap s3 = m).
    { by rewrite (ev_expanded _ _ E3), (ev_expanded _ _ E2), (ev_expanded _ _ E1). }
    exists ps, m, s3. split; [done|].
    split; [unfold setExpanded; by rewrite Hstep|]. split; [done|].
    split; [|done].
    unfold setExpanded. rewrite Hstep. cbn [bind]. fold s0.
    rewrite H1. cbn [bind]. rewrite H2. cbn [bind]. rewrite H3. cbn [bind].
    by rewrite E.
  - destruct Hf as (d & h & Hrk & Hb3).
    set (m := if isActivable s r then
                if v then
                  <[value (heap s r) := true]>
                    (if Config.activeMultiple (config s) then activedMap s else ∅)
                else delete (value (heap s r)) (activedMap s)
              else activedMap s).
    set (s0 := set_activedMap s m).
    assert (R0 : ranked d h s0) by (eapply ranked_shape; [|done]; by split).
    destruct (update_total d h s0 fuel r R0) as [s1 H1].
    { specialize (Hb3 r 0 0). lia. }
    pose proof (update_evolves _ _ _ _ H1) as E1.
    assert (E : activedMap s1 = m) by by rewrite (ev_actived _ _ E1).
    exists m, s1. split; [done|]. split; [done|]. split; [|done].
    unfold setActived. fold m. fold s0. rewrite H1. cbn [bind]. by rewrite E.
Qed.

(** In [family], a preview of checking B hands back a map that binds B and
    leaves the live map without it. *)
Lemma preview_keeps_store_witness :
  forest 5 family /\
  exists m, setChecked 5 family 2 true false = Ret (family, m) /\
            m !! "B" = Some true /\ checkedMap family !! "B" = None.
Proof.
  split; [apply family_forest|].
  destruct (preview_keeps_store 5 family 2 true (family_forest _ _ _ _ _ _ _))
    as [(m & s' & Hm & Hw & _) _].
  exists m. split; [exact Hm|].
  vm_compute in Hw. injection Hw as <-. split; reflexivity.
Defined.

(** C9, at the failing input.  In [family] B is the last child of P.
    Re-inserting B after itself, [B.insertAfter(B)], makes [insert] call
    [B.appendTo(tree, P, 2)]; the position guard reads the slot after the
    end of the child array and the call raises a [TypeError]. *)
Theorem insertAfter_self_last_throws :
  forall fuel,
    getIndex family 2 = 1%Z /\
    appendTo (S fuel) family 2 (parent (heap family 2)) (Some 2%Z)
    = Throw TypeError /\
    insertAfter (S fuel) family 2 2 = Throw TypeError.
Proof.
  intros fuel.
  assert (H : appendTo (S fuel) family 2 (parent (heap family 2)) (Some 2%Z)
              = Throw TypeError).
  { apply (appendTo_empty_slot _ _ _ 0 _ [] [1; 2]).
    - reflexivity.
    - intros a Ha. inversion Ha.
    - reflexivity.
    - reflexivity. }
  split; [reflexivity|]. split; [exact H|].
  unfold insertAfter, insert.
  change (Some (getIndex family 2%nat + 1)%Z) with (Some 2%Z). by rewrite H.
Qed.

(** C10.  For a checkable node [updateChecked] returns and leaves the live
    checked map with the node's identity added when the node's derived
    state is true, and as it was when it is false.  Hence a committed
    [setChecked(true)] outside strict mode, on a node the index holds, ends
    with every checkable indexed ancestor bound in the live map whose
    children were all checked once the call had written the subtree. *)
Theorem updateChecked_rebinds fuel s :
  forest fuel s ->
  (forall n, isCheckable s n = true ->
     exists s' c,
       updateChecked fuel s n = Ret s' /\
       isChecked fuel s n None = Ret c /\
       checkedMap s' =
       if c then <[value (heap s n) := true]> (checkedMap s)
       else checkedMap s) /\
  (forall r a anc kids m1,
     Config.checkStrictly (config s) = false ->
     nodeMap s !! value (heap s r) = Some r ->
     getParents fuel s r = Ret anc -> a ∈ anc ->
     isCheckable s a = true -> inNodeMap s a = true ->
     children (heap s a) = Kids kids -> kids <> [] ->
     setChecked_write fuel s r true (checkedMap s) = Ret m1 ->
     (forall c, c ∈ kids ->
        isChecked fuel (set_checkedMap s m1) c None = Ret true) ->
     exists s',
       setChecked fuel s r true true = Ret (s', checkedMap s') /\
       checkedMap s' !! value (heap s a) = Some true).
Proof.
  intros Hf. pose proof Hf as (d & h & Hrk & Hb3).
  assert (Hb : forall x y, d x + h y < fuel)
    by (intros x y; specialize (Hb3 x 0 y); lia).
  split.
  - intros n Hck.
    destruct (updateChecked_total d h s fuel n Hrk) as [s' Hs'].
    { intros x. apply Hb. }
    pose proof (updateChecked_map _ _ _ _ Hs') as Hm. rewrite Hck in Hm.
    destruct Hm as (c & Hc & Hm). by exists s', c.
  - intros r a anc kids m1 Hstrict Hidx Hanc Ha Hck Hin Hch Hne Hw Hall.
    unfold setChecked. rewrite Hw. cbn [bind].
    set (s1 := set_checkedMap s m1) in *.
    assert (S1 : same_shape s s1) by by split.
    assert (R1 : ranked d h s1) by (eapply ranked_shape; [|done]; done).
    change (config s1) with (config s). rewrite Hstrict.
    unfold getRelatedNodes. cbn [forEach].
    change (nodeMap s1) with (nodeMap s). change (heap s1) with (heap s).
    rewrite Hidx.
    destruct (walk_total d h s1 fuel r R1) as [sub Hsub].
    { specialize (Hb3 0 0 r). lia. }
    rewrite Hsub. cbn [bind].
    rewrite (getParents_shape _ _ _ _ S1), Hanc. cbn [bind app].
    destruct (propagate_binds d h fuel (rev sub ++ anc) s1 a kids)
      as (s' & Hs' & _ & Hbound); auto.
    { apply elem_of_app. by right. }
    rewrite Hs'. cbn [bind]. by exists s'.
Qed.

(** In [family] A is checked; checking B for good binds the parent P. *)
Lemma updateChecked_rebinds_witness :
  forest 5 family /\
  exists s', setChecked 5 family 2 true true = Ret (s', checkedMap s') /\
             checkedMap s' !! "P" = Some true.
Proof.
  split; [apply family_forest|].
  destruct (updateChecked_rebinds 5 family (family_forest _ _ _ _ _ _ _))
    as [_ H].
  apply (H 2 0 [0] [1; 2] (<[ "B" := true ]> {[ "A" := true ]})).
  - reflexivity.
  - reflexivity.
  - reflexivity.
  - left.
  - reflexivity.
  - reflexivity.
  - reflexivity.
  - discriminate.
  - vm_compute. reflexivity.
  - intros c Hc. apply elem_of_cons in Hc as [->|Hc].
    + vm_compute. reflexivity.
    + apply list_elem_of_singleton in Hc as ->. vm_compute. reflexivity.
Defined.

(** * Further properties of the node methods *)

(** [remove] on a forest returns, and afterwards no identity of the
    removed subtree is bound in the node index, the expanded map or the
    activated map; nor in the checked map, unless an ancestor of the removed
    node carries the same identity. *)
Theorem remove_cleans fuel s r :
  forest fuel s ->
  exists nodes anc s',
    walk fuel s r = Ret nodes /\
    getParents fuel s r = Ret anc /\
    remove fuel s r = Ret s' /\
    forall x, x ∈ nodes ->
      nodeMap s' !! value (heap s x) = None /\
      expandedMap s' !! value (heap s x) = None /\
      activedMap s' !! value (heap s x) = None /\
      ((forall a, a ∈ anc -> value (heap s a) <> value (heap s x)) ->
       checkedMap s' !! value (heap s x) = None).
Proof.
  intros Hf. destruct (getParents_forest fuel s r Hf) as [anc Hanc].
  destruct Hf as (d & h & Hrk & Hb).
  destruct (remove_total d h s fuel r Hrk Hb) as [s' Hs'].
  destruct (remove_inv _ _ _ _ Hs') as (nodes & s3 & Hw & H3 & H4).
  exists nodes, anc, s'. do 3 (split; [done|]).
  set (siblings' := splice (getIndex s r) 1 [] (getSiblings s r)) in *.
  set (s1 := setSiblings s r siblings') in *.
  set (s2 := foldl clean s1 nodes) in *.
  destruct (setSiblings_maps s r siblings') as (_ & Hn1 & Hc1 & He1 & Ha1 & _).
  fold s1 in Hn1, Hc1, He1, Ha1.
  apply forEach_update_writes in H3 as [W3 C3].
  pose proof (w_evolves _ _ _ W3) as E3.
  assert (Hpar : forall x, parent (heap s3 x) = parent (heap s x)).
  { intros x. rewrite (shape_parent _ _ (ev_shape _ _ E3)). unfold s2.
    rewrite foldl_clean_heap. apply setSiblings_parent. }
  assert (Hval : forall x, value (heap s3 x) = value (heap s x)).
  { intros x. rewrite (shape_value _ _ (ev_shape _ _ E3)). unfold s2.
    rewrite foldl_clean_heap. apply setSiblings_value. }
  assert (Hanc3 : getParents fuel s3 r = Ret anc).
  { unfold getParents. rewrite Hpar, (parentsFrom_ext _ s s3); done. }
  pose proof (updateParents_writes _ _ _ _ _ H4 Hanc3) as W4.
  pose proof (w_evolves _ _ _ W4) as E4.
  intros x Hx.
  assert (Hv1 : value (heap s1 x) = value (heap s x))
    by apply setSiblings_value.
  split; [|split; [|split]].
  - rewrite (shape_nodeMap _ _ (ev_shape _ _ E4)).
    rewrite (shape_nodeMap _ _ (ev_shape _ _ E3)).
    unfold s2. rewrite foldl_clean_nodeMap, <- Hv1.
    by apply (lookup_foldl_delete_elem (fun x => value (heap s1 x))).
  - rewrite (ev_expanded _ _ E4), (ev_expanded _ _ E3).
    unfold s2. rewrite foldl_clean_expandedMap, <- Hv1.
    by apply (lookup_foldl_delete_elem (fun x => value (heap s1 x))).
  - rewrite (ev_actived _ _ E4), (ev_actived _ _ E3).
    unfold s2. rewrite foldl_clean_activedMap, <- Hv1.
    by apply (lookup_foldl_delete_elem (fun x => value (heap s1 x))).
  - intros Hne. rewrite (w_checked _ _ _ W4).
    + rewrite C3. unfold s2. rewrite foldl_clean_checkedMap, <- Hv1.
      by apply (lookup_foldl_delete_elem (fun x => value (heap s1 x))).
    + intros a Ha. rewrite Hval. by apply Hne.
Qed.

Lemma remove_cleans_witness :
  forest 5 family /\
  exists s', remove 5 family 1 = Ret s' /\
             nodeMap s' !! "A" = None /\ checkedMap s' !! "A" = None.
Proof.
  split; [apply family_forest|].
  destruct (remove_cleans 5 family 1 (family_forest _ _ _ _ _ _ _))
    as (nodes & anc & s' & Hw & Hanc & Hs' & H).
  exists s'. split; [exact Hs'|].
  vm_compute in Hw. injection Hw as <-.
  vm_compute in Hanc. injection Hanc as <-.
  destruct (H 1 ltac:(left)) as (Hn & _ & _ & Hc).
  split; [exact Hn|]. apply Hc.
  intros a Ha. apply list_elem_of_singleton in Ha as ->. simpl. discriminate.
Defined.

(** [remove] takes the node out of its sibling list at its first position
    and keeps the order of the others; called on a node that is not in the
    list its parent link designates, it drops the last sibling instead. *)
Theorem remove_siblings fuel s r :
  forest fuel s ->
  exists s',
    remove fuel s r = Ret s' /\
    (r ∈ getSiblings s r ->
     exists i, getIndex s r = Z.of_nat i /\
               getSiblings s r !! i = Some r /\
               (forall j, j < i -> getSiblings s r !! j <> Some r) /\
               getSiblings s' r = delete i (getSiblings s r)) /\
    (r ∉ getSiblings s r ->
     getIndex s r = (-1)%Z /\
     getSiblings s' r = removelast (getSiblings s r)).
Proof.
  intros (d & h & Hrk & Hb).
  destruct (remove_total d h s fuel r Hrk Hb) as [s' Hs'].
  exists s'. split; [done|].
  pose proof (remove_getSiblings _ _ _ _ Hs') as Hsib. split.
  - intros Hin. destruct (indexOf_first r _ Hin) as (i & Hi & Hl & Hmin).
    exists i. unfold getIndex at 1. do 3 (split; [done|]).
    rewrite Hsib. unfold getIndex. rewrite Hi. apply splice_remove_at.
    by eapply lookup_lt_Some.
  - intros Hnin. apply indexOf_absent in Hnin. unfold getIndex at 1.
    split; [done|]. rewrite Hsib. unfold getIndex. rewrite Hnin.
    apply splice_remove_last.
Qed.

(** In [family], removing A leaves B as the only child of P. *)
Lemma remove_siblings_witness :
  forest 5 family /\
  exists s', remove 5 family 1 = Ret s' /\ getSiblings s' 1 = [2].
Proof.
  split; [apply family_forest|].
  destruct (remove_siblings 5 family 1 (family_forest _ _ _ _ _ _ _))
    as (s' & Hs' & Hin & _).
  exists s'. split; [exact Hs'|].
  destruct (Hin ltac:(left)) as (i & Hi & _ & _ & ->).
  vm_compute in Hi. destruct i as [|[|i]]; [reflexivity|discriminate|].
  exfalso. lia.
Defined.

(** [remove] writes no object but the remaining siblings and the ancestors
    of the removed node: every other object, the removed one included when
    it stood once among its siblings, keeps all its fields, cached ones
    too. *)
Theorem remove_frame fuel s r :
  forest fuel s ->
  exists anc s',
    getParents fuel s r = Ret anc /\
    remove fuel s r = Ret s' /\
    (r ∉ anc) /\
    forall x, x ∉ getSiblings s' r -> x ∉ anc -> heap s' x = heap s x.
Proof.
  intros Hf. pose proof Hf as (d & h & Hrk & Hb).
  destruct (getParents_total d h s Hrk fuel r) as (anc & Hanc & Hd).
  { specialize (Hb r 0 0). lia. }
  destruct (remove_total d h s fuel r Hrk Hb) as [s' Hs'].
  exists anc, s'. do 2 (split; [done|]). split.
  { intros Hr. specialize (Hd r Hr). lia. }
  rewrite (remove_getSiblings _ _ _ _ Hs').
  destruct (remove_inv _ _ _ _ Hs') as (nodes & s3 & _ & H3 & H4).
  set (siblings' := splice (getIndex s r) 1 [] (getSiblings s r)) in *.
  apply forEach_update_writes in H3 as [W3 _].
  pose proof (w_evolves _ _ _ W3) as E3.
  assert (Hanc3 : getParents fuel s3 r = Ret anc).
  { unfold getParents.
    assert (forall x, parent (heap s3 x) = parent (heap s x)) as Hpar.
    { intros x. rewrite (shape_parent _ _ (ev_shape _ _ E3)).
      rewrite foldl_clean_heap. apply setSiblings_parent. }
    rewrite Hpar, (parentsFrom_ext _ s s3); done. }
  pose proof (updateParents_writes _ _ _ _ _ H4 Hanc3) as W4.
  intros x Hsib Hx.
  rewrite (w_heap _ _ _ W4) by done. rewrite (w_heap _ _ _ W3) by done.
  rewrite foldl_clean_heap. apply setSiblings_frame.
  intros p Hp ->. apply Hx. by eapply getParents_head.
Qed.

(** In [family], removing A leaves the object of A as it was. *)
Lemma remove_frame_witness :
  forest 5 family /\
  exists s', remove 5 family 1 = Ret s' /\ heap s' 1 = heap family 1.
Proof.
  split; [apply family_forest|].
  destruct (remove_frame 5 family 1 (family_forest _ _ _ _ _ _ _))
    as (anc & s' & Hanc & Hs' & _ & H).
  exists s'. split; [exact Hs'|].
  vm_compute in Hanc. injection Hanc as <-.
  apply H.
  - rewrite (remove_getSiblings _ _ _ _ Hs'). vm_compute.
    intros Hin. apply list_elem_of_singleton in Hin. discriminate.
  - intros Hin. apply list_elem_of_singleton in Hin. discriminate.
Defined.

(** [appendTo] refuses to put a node under one of its proper descendants:
    when the node is among the ancestors of the target parent the call
    returns at the cycle guard and the store is the one it was given. *)
Theorem appendTo_descendant_refused fuel s r p index :
  forest fuel s ->
  exists anc,
    getParents fuel s p = Ret anc /\
    (r ∈ anc -> appendTo fuel s r (Some p) index = Ret s).
Proof.
  intros Hf. destruct (getParents_forest fuel s p Hf) as [anc Hanc].
  exists anc. split; [done|]. intros Hr.
  by apply (appendTo_into_descendant _ _ _ _ _ anc r).
Qed.

(** In [family], P is not moved under its child A. *)
Lemma appendTo_descendant_refused_witness :
  forest 5 family /\ appendTo 5 family 0 (Some 1) None = Ret family.
Proof.
  split; [apply family_forest|].
  destruct (appendTo_descendant_refused 5 family 0 1 None
              (family_forest _ _ _ _ _ _ _)) as (anc & Hanc & H).
  apply H. vm_compute in Hanc. injection Hanc as <-. left.
Defined.

(** The position guard of [appendTo] reads the slot at the target index
    (0 when no index is given) without a bounds check: on a target parent
    with a child array, a call that passes the cycle guard raises a
    [TypeError] whenever that index is outside the array, the empty array
    included. *)
Theorem appendTo_out_of_range fuel s r p index l :
  forest fuel s ->
  children (heap s p) = Kids l ->
  at_index l (default 0%Z index) = None ->
  exists anc,
    getParents fuel s p = Ret anc /\
    ((forall a, a ∈ anc -> value (heap s a) <> value (heap s r)) ->
     appendTo fuel s r (Some p) index = Throw TypeError).
Proof.
  intros Hf Hl Hat. destruct (getParents_forest fuel s p Hf) as [anc Hanc].
  exists anc. split; [done|]. intros Hne.
  by apply (appendTo_empty_slot _ _ _ _ _ anc l).
Qed.

(** In [emptied], appending N to C, whose child array is empty, raises. *)
Lemma appendTo_out_of_range_witness :
  forest 5 emptied /\
  children (heap emptied 1) = Kids [] /\
  at_index [] (default 0%Z None) = None /\
  appendTo 5 emptied 2 (Some 1) None = Throw TypeError.
Proof.
  split; [exact emptied_forest|]. split; [reflexivity|]. split; [reflexivity|].
  destruct (appendTo_out_of_range 5 emptied 2 1 None [] emptied_forest
              eq_refl eq_refl) as (anc & Hanc & H).
  apply H. vm_compute in Hanc. injection Hanc as <-.
  intros a Ha. apply list_elem_of_singleton in Ha as ->. simpl. discriminate.
Defined.

(** [appendTo] of a node under itself never completes a move: the call is
    refused by a guard (store unchanged), raises at the position guard, or
    does not return. *)
Theorem appendTo_self_outcomes fuel s r index :
  appendTo fuel s r (Some r) index = Ret s \/
  appendTo fuel s r (Some r) index = Throw TypeError \/
  appendTo fuel s r (Some r) index = Timeout.
Proof.
  unfold appendTo.
  destruct (getParents fuel s r) as [anc|e|] eqn:Hanc;
    [|by destruct (noThrow_getParents fuel s r e)|by right; right].
  cbn [bind]. destruct (existsb _ anc); [by left|].
  destruct (asArray (children (heap s r))) as [l|].
  - destruct (at_index l (default 0%Z index)) as [t|]; [|by right; left].
    destruct (bool_decide _); [by left|].
    right; right. apply appendTo_move_self.
  - right; right. apply appendTo_move_self.
Qed.
